(** * go-ratelimiting: leaky bucket and sliding window rate limiters

    A shallow embedding of the two packages of the repository.

    - [Redis]: the distributed limiters.  Each [Use] sends one Lua script
      through [Adapter.Eval] and parses the reply.
      [Redis.LeakyBucket]: [LeakyBucketImpl.Use] with its script,
      [calculateLeakyBucketFillTime], [getRefillRate] and
      [parseLeakyBucketResponse] (src/redis/redis_test.go, lines 77-292).
      [Redis.SlidingWindow]: [SlidingWindowImpl.Inspect] and [Use] with
      their scripts and [parseSlidingWindowResponse] (src/unnamed/part_005),
      [parseRedisInt64Slice] (src/unnamed/part_002, lines 154-175).
      [Redis.Redigo]: [buildEvalArgs] of the redigo adapter
      (src/redis/adapters/redigo/adapter.go).
    - [Local]: the in-process limiters, one mutex per instance.
      [Local.LeakyBucket]: src/local/sliding_window_test.go, lines 127-272.
      [Local.SlidingWindow]: src/local/README.md, lines 116-273.

    Conventions of the embedding.

    - Go's [int], [int64] and [time.Duration] are [Z], and the embedding
      adds, subtracts and compares them exactly.  The code's integers are
      64-bit: the theorems about an addition or a subtraction that could
      wrap state, as a hypothesis, the range in which it does not.  Integer
      division is Go's: it truncates ([Z.quot]) and panics on a zero divisor.
    - Go's [float64] and the numbers of Lua are IEEE 754 binary64: the refill
      rate, its product with the elapsed time and the quotient of the
      missing tokens by it are computed with the kernel's primitive floats,
      rounding included.  Tokens, capacities and timestamps are integers
      throughout the code; on these the embedding computes in [Z], which is
      what the code does as long as binary64 holds them (up to [2^53]), and
      as long as Lua's [tostring] prints them in full (14 digits) where the
      script stores them.  These ranges are hypotheses of the theorems:
      [leakyInRange], [slidingInRange] and [fillInRange] below.
    - The store behind the adapter is Redis: a string key holds the number the
      script wrote, or nothing; a sorted set holds each member once, and the
      sliding window's members are their own scores.  The time to live of
      the leaky bucket's keys is an event of the environment that removes
      them both; the embedding takes the time to live that a script sets to
      be positive, as the range hypotheses say, so that [SET ... EX] is
      accepted and [EXPIRE] keeps the key.
    - A clock reading is an argument: each call of a method receives the
      instant [now] at which it runs (the [nowFunc] of the redis limiters;
      [time.Now] under the mutex of the local ones, the readings of one call
      taken as one instant).
    - A method of a local limiter runs under the instance's mutex, so calls
      are serialised: a method is a function from the state before to the
      state after and the returned values.  [Wait] and [WaitFunc] hold no
      lock while they wait: their loop is followed turn by turn, with what
      the scheduler and the other goroutines do in between as an input. *)

From Stdlib Require Import ZArith Floats Lia Bool String Sorted.
From stdpp Require Import base option list gmap sets.

Local Open Scope Z_scope.

(** ** Go values shared by both packages *)

Module Go.

(** A function that may end in a run-time panic (integer division by zero). *)
Inductive outcome (A : Type) : Type :=
| Done (a : A)
| Panic.
Arguments Done {A} a.
Arguments Panic {A}.

Definition obind {A B} (m : outcome A) (k : A -> outcome B) : outcome B :=
  match m with
  | Done a => k a
  | Panic => Panic
  end.

(** Errors built by [fmt.Errorf] and [errors.New] in the two packages. *)
Inductive error : Type :=
| ErrCapacity                                  (* "capacity must be more than 0" *)
| ErrDuration                                  (* "duration must be more than 0" *)
| ErrBackend (msg : string)                    (* an error of the adapter *)
| ErrExpectedSlice (got : string)              (* "expected []interface{} but got %T" *)
| ErrExpectedArgs (want got : nat)             (* "expected %d args but got %d" *)
| ErrExpectedInt64 (index : nat) (got : string) (* "expected int64 in arg[%d] but got %T" *)
| ErrExpectedInt64s (index : nat) (got : string) (* "expected int64 in args[%d] but got %T" *)
| ErrExpectingInt64 (got : string)             (* "expecting int64 but got %T" *)
| ErrQuery (cause : error)                     (* "failed to query redis adapter: %w" *)
| ErrParsing (cause : error).                  (* "parsing redis response: %w" *)

(** Go's [(T, error)] with exactly one of the two set. *)
Inductive result (A : Type) : Type :=
| Ok (a : A)
| Err (e : error).
Arguments Ok {A} a.
Arguments Err {A} e.

Definition is_err {A} (r : result A) : bool :=
  match r with
  | Ok _ => false
  | Err _ => true
  end.

(** [float64(n)] for an integer [n], and the number Lua reads from a decimal
    integer: the nearest binary64. *)
Definition float64 (n : Z) : float :=
  SF2Prim (binary_normalize prec emax n 0 false).

(** A binary64 without fractional part, as [math.Floor], [math.Ceil] and
    Lua's [math.floor] return it. *)
Inductive number : Type :=
| Int (n : Z)
| PosInf
| NegInf
| NaN.

(** The integer and the sign of a finite binary64, [(-1)^s * m * 2^e]. *)
Definition signed (s : bool) (m : positive) : Z :=
  if s then Z.neg m else Z.pos m.

Definition floor (x : float) : number :=
  match Prim2SF x with
  | S754_zero _ => Int 0
  | S754_infinity false => PosInf
  | S754_infinity true => NegInf
  | S754_nan => NaN
  | S754_finite s m e =>
      Int (if 0 <=? e then signed s m * 2 ^ e else signed s m / 2 ^ (- e))
  end.

Definition ceil (x : float) : number :=
  match Prim2SF x with
  | S754_zero _ => Int 0
  | S754_infinity false => PosInf
  | S754_infinity true => NegInf
  | S754_nan => NaN
  | S754_finite s m e =>
      Int (if 0 <=? e then signed s m * 2 ^ e
           else - ((- signed s m) / 2 ^ (- e)))
  end.

(** Go's conversion [int(x)] of such a float.  For a value that no [int]
    holds the result depends on the processor; amd64's is taken, the least
    [int64]. *)
Definition toInt (x : number) : Z :=
  match x with
  | Int n => if (- 2 ^ 63 <=? n) && (n <? 2 ^ 63) then n else - 2 ^ 63
  | PosInf | NegInf | NaN => - 2 ^ 63
  end.

(** The dynamic values an [interface{}] reply of an adapter may hold. *)
#[warnings="-register-all"]
Inductive value : Type :=
| VNil
| VInt64 (n : Z)
| VInt (n : Z)
| VFloat64 (f : float)
| VString (s : string)
| VSlice (args : list value).

(** [%T] of a value. *)
Definition typeName (v : value) : string :=
  match v with
  | VNil => "<nil>"
  | VInt64 _ => "int64"
  | VInt _ => "int"
  | VFloat64 _ => "float64"
  | VString _ => "string"
  | VSlice _ => "[]interface {}"
  end.

End Go.

Import Go.

(** ** The distributed limiters *)

Module Redis.

(** *** Leaky bucket *)

Module LeakyBucket.

Record LeakyBucketOptions : Type := {
  KeyPrefix : string;
  MaximumCapacity : Z;
  WindowSeconds : Z
}.

Record UseLeakyBucketResponse : Type := {
  Success : bool;
  RemainingTokens : Z;
  (* unix seconds of the [time.Time] *)
  ResetAt : Z
}.

(** The two keys of one bucket, [prefix::tokens] and [prefix::last_fill];
    [None] is a key that does not exist (never written, or expired). *)
Record LeakyKeys : Type := {
  tokensKey : option Z;
  lastFillKey : option Z
}.

Definition noKeys : LeakyKeys := {| tokensKey := None; lastFillKey := None |}.

(** What [Use] hands to [Adapter.Eval]: the key names and ARGV. *)
Record LeakyArgs : Type := {
  argTokensKey : string;
  argLastFillKey : string;
  argCapacity : Z;
  argRate : float;
  argNow : Z;
  argTake : Z;
  argWindowSeconds : Z
}.

(** The values the script returns: [{success, tokens, lastFilled}]. *)
Record LeakyReply : Type := {
  replySuccess : Z;
  replyTokens : Z;
  replyLastFilled : Z
}.

(** The Lua script of [LeakyBucketImpl.Use], statement by statement. *)
Definition leakyBucketScript (capacity : Z) (rate : float) (now take : Z)
    (db : LeakyKeys) : LeakyKeys * LeakyReply :=
  let tokens := tokensKey db in
  let lastFilled := lastFillKey db in
  (* if (tokens == nil) then tokens = 0 end *)
  let tokens := match tokens with Some t => t | None => 0 end in
  (* if (tokens > capacity) then tokens = capacity end *)
  let tokens := if capacity <? tokens then capacity else tokens in
  (* if (lastFilled == nil) then lastFilled = 0 end *)
  let lastFilled := match lastFilled with Some l => l | None => 0 end in
  (* if (tokens < capacity) then ... end *)
  let '(tokens, lastFilled) :=
    if tokens <? capacity then
      let tokensToFill := floor (float64 (now - lastFilled) * rate) in
      (* if (tokensToFill > 0) then
           tokens = math.min(capacity, tokens + tokensToFill)
           lastFilled = now
         end *)
      match tokensToFill with
      | Int n =>
          if 0 <? n then (Z.min capacity (tokens + n), now)
          else (tokens, lastFilled)
      | PosInf => (capacity, now)
      | NegInf | NaN => (tokens, lastFilled)
      end
    else (tokens, lastFilled) in
  let success := 0 in
  (* if (tokens >= take) then tokens = tokens - take; success = 1 end *)
  let '(tokens, success) :=
    if take <=? tokens then (tokens - take, 1) else (tokens, success) in
  (* both keys are set, with the window as their time to live *)
  ({| tokensKey := Some tokens; lastFillKey := Some lastFilled |},
   {| replySuccess := success; replyTokens := tokens;
      replyLastFilled := lastFilled |}).

Definition getRefillRate (maxCapacity windowSeconds : Z) : float :=
  float64 maxCapacity / float64 windowSeconds.

Definition calculateLeakyBucketFillTime
    (lastFillUnix currentTokens maxCapacity windowSeconds : Z) : Z :=
  let resetAt := lastFillUnix in
  let delta := maxCapacity - currentTokens in
  if 0 <? delta then
    let rate := getRefillRate maxCapacity windowSeconds in
    let secondsTillRefill := windowSeconds in
    let calculatedSeconds := toInt (ceil (float64 delta / rate)) in
    let secondsTillRefill :=
      if calculatedSeconds <? secondsTillRefill
      then calculatedSeconds else secondsTillRefill in
    resetAt + secondsTillRefill
  else resetAt.

Record leakyBucketOutput : Type := {
  success : bool;
  remaining : Z;
  lastFilled : Z
}.

(** The loop of [parseLeakyBucketResponse] over [args]: [i] is the index of
    the head of [args]. *)
Fixpoint leakyArgInts (i : nat) (args : list value) : result (list Z) :=
  match args with
  | [] => Ok []
  | argValue :: rest =>
      match argValue with
      | VInt64 intValue =>
          match leakyArgInts (S i) rest with
          | Ok ints => Ok (intValue :: ints)
          | Err e => Err e
          end
      | _ => Err (ErrExpectedInt64 i (typeName argValue))
      end
  end.

Definition parseLeakyBucketResponse (v : value) : result leakyBucketOutput :=
  match v with
  | VSlice args =>
      if negb (length args =? 3)%nat
      then Err (ErrExpectedArgs 3 (length args))
      else
        match leakyArgInts 0 args with
        | Err e => Err e
        | Ok argInts =>
            Ok {| success := nth 0 argInts 0 =? 1;
                  remaining := nth 1 argInts 0;
                  lastFilled := nth 2 argInts 0 |}
        end
  | _ => Err (ErrExpectedSlice (typeName v))
  end.

(** [Adapter.Eval] for the leaky bucket script, over a backend with state
    [S]: the reply or the error of the backend. *)
Definition LeakyEval (S : Type) : Type := LeakyArgs -> S -> S * result value.

(** [LeakyBucketImpl.Use], run at the instant [now]. *)
Definition Use {S : Type} (eval : LeakyEval S) (bucket : LeakyBucketOptions)
    (takeAmount now : Z) (s : S) : S * result UseLeakyBucketResponse :=
  let refillRate :=
    getRefillRate (MaximumCapacity bucket) (WindowSeconds bucket) in
  let tokensKey := (KeyPrefix bucket ++ "::tokens")%string in
  let lastFillKey := (KeyPrefix bucket ++ "::last_fill")%string in
  let '(s', resp) :=
    eval {| argTokensKey := tokensKey; argLastFillKey := lastFillKey;
            argCapacity := MaximumCapacity bucket; argRate := refillRate;
            argNow := now; argTake := takeAmount;
            argWindowSeconds := WindowSeconds bucket |} s in
  match resp with
  | Err err => (s', Err (ErrQuery err))
  | Ok resp =>
      match parseLeakyBucketResponse resp with
      | Err err => (s', Err (ErrParsing err))
      | Ok output =>
          (s', Ok {| Success := success output;
                     RemainingTokens := remaining output;
                     ResetAt :=
                       calculateLeakyBucketFillTime (lastFilled output)
                         (remaining output) (MaximumCapacity bucket)
                         (WindowSeconds bucket) |})
      end
  end.

(** The adapter of the tests' [mockAdapter]: one fixed reply. *)
Definition mockAdapter {A : Type} (returnValue : value)
    (returnError : option error) : A -> bool -> bool * result value :=
  fun _ _ =>
    (true, match returnError with Some e => Err e | None => Ok returnValue end).

(** A Redis server behind the adapter: it runs the script on the bucket's
    keys and replies with the three integers. *)
Definition redisLeakyEval : LeakyEval LeakyKeys :=
  fun a db =>
    let '(db', r) :=
      leakyBucketScript (argCapacity a) (argRate a) (argNow a) (argTake a) db in
    (db', Ok (VSlice [VInt64 (replySuccess r); VInt64 (replyTokens r);
                      VInt64 (replyLastFilled r)])).

End LeakyBucket.

(** *** Sliding window *)

Module SlidingWindow.

Record SlidingWindowOptions : Type := {
  Key : string;
  MaximumCapacity : Z;
  (* a [time.Duration], in nanoseconds *)
  Window : Z
}.

Record InspectSlidingWindowResponse : Type := {
  InspectRemainingCapacity : Z
}.

Record UseSlidingWindowResponse : Type := {
  Success : bool;
  RemainingCapacity : Z
}.

(** The sorted set stored under the key.  [Use] adds the member [expiresAt]
    with the score [expiresAt]: a member is its own score, so the set is the
    finite set of the expiry instants it holds.  The time to live that [Use]
    gives the key is at least the window, so the key goes only once all its
    members have expired. *)
Abbreviation SortedSet := (gset Z).

(** [zremrangebyscore key -inf now] *)
Definition zremrangebyscore (now : Z) (zset : SortedSet) : SortedSet :=
  filter (fun score => now < score) zset.

(** [zcard key] *)
Definition zcard (zset : SortedSet) : Z := Z.of_nat (size zset).

(** [zadd key score member] with [member = score] *)
Definition zadd (member : Z) (zset : SortedSet) : SortedSet :=
  {[ member ]} ∪ zset.

(** The Lua script of [SlidingWindowImpl.Inspect]. *)
Definition inspectScript (now : Z) (zset : SortedSet) : SortedSet * Z :=
  let zset := zremrangebyscore now zset in
  let tokens := zcard zset in
  (zset, tokens).

(** The Lua script of [SlidingWindowImpl.Use]: the reply is
    [{success, tokens}]. *)
Definition useScript (now expiresAt max : Z) (zset : SortedSet)
    : SortedSet * (Z * Z) :=
  let zset := zremrangebyscore now zset in
  let tokens := zcard zset in
  let success := 0 in
  if tokens <? max
  then (zadd expiresAt zset, (1, tokens + 1))
  else (zset, (success, tokens)).

(** The loop of [parseRedisInt64Slice] over [args]: [i] is the index of the
    head of [args]. *)
Fixpoint int64Slice (i : nat) (args : list value) : result (list Z) :=
  match args with
  | [] => Ok []
  | arg :: rest =>
      match arg with
      | VInt64 value =>
          match int64Slice (S i) rest with
          | Ok out => Ok (value :: out)
          | Err e => Err e
          end
      | _ => Err (ErrExpectedInt64s i (typeName arg))
      end
  end.

Definition parseRedisInt64Slice (v : value) : result (list Z) :=
  match v with
  | VSlice args => int64Slice 0 args
  | _ => Err (ErrExpectedSlice (typeName v))
  end.

Record slidingWindowOutput : Type := {
  success : bool;
  tokens : Z
}.

Definition parseSlidingWindowResponse (v : value) : result slidingWindowOutput :=
  match parseRedisInt64Slice v with
  | Err err => Err err
  | Ok ints =>
      if negb (length ints =? 2)%nat
      then Err (ErrExpectedArgs 2 (length ints))
      else Ok {| success := nth 0 ints 0 =? 1; tokens := nth 1 ints 0 |}
  end.

(** What the two methods hand to [Adapter.Eval]. *)
Inductive SlidingArgs : Type :=
| InspectArgs (key : string) (now : Z)
| UseArgs (key : string) (current expiresAt windowTTL maximumCapacity : Z).

Definition SlidingEval (S : Type) : Type := SlidingArgs -> S -> S * result value.

(** [SlidingWindowImpl.Inspect], run at the instant [now] (nanoseconds). *)
Definition Inspect {S : Type} (eval : SlidingEval S)
    (bucket : SlidingWindowOptions) (now : Z) (s : S)
    : S * result InspectSlidingWindowResponse :=
  let '(s', resp) := eval (InspectArgs (Key bucket) now) s in
  match resp with
  | Err err => (s', Err (ErrQuery err))
  | Ok (VInt64 tokens) =>
      let remaining := 0 in
      let v := MaximumCapacity bucket - tokens in
      let remaining := if 0 <? v then v else remaining in
      (s', Ok {| InspectRemainingCapacity := remaining |})
  | Ok resp => (s', Err (ErrExpectingInt64 (typeName resp)))
  end.

(** [time.Duration.Seconds]: the whole seconds plus the rest over 1e9. *)
Definition Seconds (d : Z) : float :=
  float64 (Z.quot d 1000000000)
  + float64 (Z.rem d 1000000000) / float64 1000000000.

(** [SlidingWindowImpl.Use], run at the instant [now] (nanoseconds). *)
Definition Use {S : Type} (eval : SlidingEval S)
    (bucket : SlidingWindowOptions) (now : Z) (s : S)
    : S * result UseSlidingWindowResponse :=
  let current := now in
  let expiresAt := now + Window bucket in
  let windowTTL := toInt (ceil (Seconds (Window bucket))) in
  let '(s', resp) :=
    eval (UseArgs (Key bucket) current expiresAt windowTTL
            (MaximumCapacity bucket)) s in
  match resp with
  | Err err => (s', Err (ErrQuery err))
  | Ok resp =>
      match parseSlidingWindowResponse resp with
      | Err err => (s', Err (ErrParsing err))
      | Ok output =>
          let remaining := 0 in
          let v := MaximumCapacity bucket - tokens output in
          let remaining := if remaining <? v then v else remaining in
          (s', Ok {| Success := success output;
                     RemainingCapacity := remaining |})
      end
  end.

(** A Redis server behind the adapter, holding the sorted set of the key. *)
Definition redisSlidingEval : SlidingEval (gset Z) :=
  fun a zset =>
    match a with
    | InspectArgs _ now =>
        let '(zset', tokens) := inspectScript now zset in
        (zset', Ok (VInt64 tokens))
    | UseArgs _ now expiresAt _ max =>
        let '(zset', (success, tokens)) := useScript now expiresAt max zset in
        (zset', Ok (VSlice [VInt64 success; VInt64 tokens]))
    end.

End SlidingWindow.

(** *** The redigo adapter (redis/adapters/redigo/adapter.go) *)

Module Redigo.

(** [buildEvalArgs]: the arguments of the EVAL command, appended to [out]
    one after the other. *)
Definition buildEvalArgs (script : string) (keys : list string)
    (args : list value) : list value :=
  let out := [] in
  let out := out ++ [VString script; VInt (Z.of_nat (length keys))] in
  let out := fold_left (fun out v => out ++ [VString v]) keys out in
  out ++ args.

End Redigo.

End Redis.

(** ** The in-process limiters *)

Module Local.

(** *** The blocking layer

    [wait], [WaitFunc] and [awaitNextToken] have the same text for
    [leakyBucket] and for [slidingWindow]; they are written once here, over
    the [TryTakeWithDuration] of the limiter.

    A [context.Context] is the instant at which its [Done] channel is closed,
    if ever.  The goroutine that waits is followed from attempt to attempt;
    what the rest of the program does in between is given with each turn of
    its loop. *)

Section Blocking.

Context {St : Type}.

(** The [TryTakeWithDuration] of the limiter, run at an instant. *)
Variable TryTakeWithDuration : Z -> St -> outcome (St * (bool * Z)).

Definition Ctx : Type := option Z.

(** One wait of the loop, as the scheduler makes it: [pick] is the choice of
    [select] when both of its channels are ready, [late] is the time the
    goroutine takes to run again once [awaitNextToken] has returned, and
    [others] is what the other goroutines have done to the limiter, under
    its mutex, in the meantime. *)
Record turn : Type := {
  pick : bool;
  late : nat;
  others : St -> St
}.

(** [awaitNextToken], entered at the instant [now]: the timer fires at
    [now + duration] (at once when [duration <= 0]) and [ctx.Done()] is ready
    from the instant of the cancellation on.  [select] takes the channel that
    is ready first; when both are ready together it takes either one, which
    [pick] decides.  The result is the returned boolean and the instant of
    the return. *)
Definition awaitNextToken (ctx : Ctx) (pick : bool) (now duration : Z)
    : bool * Z :=
  let timerAt := now + Z.max 0 duration in
  match ctx with
  | None => (true, timerAt)
  | Some cancelledAt =>
      let doneAt := Z.max now cancelledAt in
      if doneAt <? timerAt then (false, doneAt)
      else if timerAt <? doneAt then (true, timerAt)
      else (pick, timerAt)
  end.

(** How a run of [wait] ends. *)
Inductive waited : Type :=
| Acquired (r : St) (at_ : Z)     (* [wait] returned true *)
| Cancelled (r : St) (at_ : Z)    (* [wait] returned false *)
| Panicked                        (* an attempt panicked *)
| Waiting (r : St) (at_ : Z).     (* still in the loop when [turns] ran out *)

(** The loop of [wait], entered at the instant [now].  Each turn of the loop
    that has to wait takes the head of [turns]. *)
Fixpoint wait (turns : list turn) (ctx : Ctx) (now : Z) (r : St) : waited :=
  match TryTakeWithDuration now r with
  | Panic => Panicked
  | Done (r', (available, duration)) =>
      if available then Acquired r' now
      else
        match turns with
        | [] => Waiting r' now
        | turn :: turns' =>
            let '(fired, woken) :=
              awaitNextToken ctx (pick turn) now duration in
            if negb fired then Cancelled r' woken
            else wait turns' ctx (woken + Z.of_nat (late turn))
                   (others turn r')
        end
  end.

(** [WaitFunc]: the spawned goroutine runs [wait] and calls [cb] when it
    returned true.  The boolean tells whether [cb] was called. *)
Definition WaitFunc (turns : list turn) (ctx : Ctx) (now : Z) (r : St)
    : waited * bool :=
  let w := wait turns ctx now r in
  (w, match w with Acquired _ _ => true | _ => false end).

End Blocking.

Arguments waited : clear implicits.
Arguments turn : clear implicits.

(** *** Leaky bucket *)

Module LeakyBucket.

Record leakyBucket : Type := {
  max : Z;
  tokens : Z;
  (* a [time.Duration]: nanoseconds per token *)
  rate : Z;
  (* nanoseconds *)
  lastFill : Z
}.

(** [NewLeakyBucket], run at the instant [now].  The division of two
    [time.Duration]s is Go's integer division: it truncates and it panics on
    a zero divisor. *)
Definition NewLeakyBucket (tokensPerWindow window now : Z)
    : outcome leakyBucket :=
  if tokensPerWindow =? 0 then Panic
  else
    let tokenRate := Z.quot window tokensPerWindow in
    Done {| tokens := tokensPerWindow; lastFill := now;
            max := tokensPerWindow; rate := tokenRate |}.

(** [unsafeFill], run at the instant [now]. *)
Definition unsafeFill (now : Z) (r : leakyBucket) : outcome leakyBucket :=
  if max r <=? tokens r then Done r
  else if rate r =? 0 then Panic
  else
    let tokensToFill := Z.quot (now - lastFill r) (rate r) in
    Done {| tokens := Z.min (tokens r + tokensToFill) (max r);
            lastFill := now; max := max r; rate := rate r |}.

Definition TryTakeWithDuration (now : Z) (r : leakyBucket)
    : outcome (leakyBucket * (bool * Z)) :=
  obind (unsafeFill now r) (fun r =>
    if tokens r <? 1
    then Done (r, (false, lastFill r + rate r - now))
    else
      Done ({| tokens := tokens r - 1; lastFill := lastFill r;
               max := max r; rate := rate r |}, (true, 0))).

Definition TryTake (now : Z) (r : leakyBucket) : outcome (leakyBucket * bool) :=
  obind (TryTakeWithDuration now r) (fun '(r, (resp, _)) => Done (r, resp)).

Definition Size (now : Z) (r : leakyBucket) : outcome (leakyBucket * Z) :=
  obind (unsafeFill now r) (fun r => Done (r, tokens r)).

Definition wait := wait TryTakeWithDuration.

Definition WaitFunc := WaitFunc TryTakeWithDuration.

End LeakyBucket.

(** *** Sliding window *)

Module SlidingWindow.

Record slidingWindow : Type := {
  capacity : Z;
  (* nanoseconds *)
  duration : Z;
  (* the instants at which the tokens of the window expire *)
  window : list Z
}.

Definition NewSlidingWindow (capacity duration : Z) : result slidingWindow :=
  if capacity <=? 0 then Err ErrCapacity
  else if duration <=? 0 then Err ErrDuration
  else Ok {| capacity := capacity; duration := duration; window := [] |}.

(** The loop of [clean]: [toRemove] counts the timestamps up to the first one
    that is after [now]. *)
Fixpoint toRemove (now : Z) (window : list Z) : nat :=
  match window with
  | [] => 0%nat
  | ts :: rest => if now <? ts then 0%nat else S (toRemove now rest)
  end.

Definition clean (now : Z) (r : slidingWindow) : slidingWindow :=
  {| capacity := capacity r; duration := duration r;
     window := drop (toRemove now (window r)) (window r) |}.

Definition Size (now : Z) (r : slidingWindow) : slidingWindow * Z :=
  let r := clean now r in
  (r, Z.of_nat (length (window r))).

(** [r.window[0]] panics on an empty slice. *)
Definition TryTakeWithDuration (now : Z) (r : slidingWindow)
    : outcome (slidingWindow * (bool * Z)) :=
  let r := clean now r in
  if capacity r <=? Z.of_nat (length (window r)) then
    match window r with
    | [] => Panic
    | first :: _ => Done (r, (false, first - now))
    end
  else
    Done ({| capacity := capacity r; duration := duration r;
             window := window r ++ [now + duration r] |}, (true, 0)).

Definition TryTake (now : Z) (r : slidingWindow)
    : outcome (slidingWindow * bool) :=
  obind (TryTakeWithDuration now r) (fun '(r, (resp, _)) => Done (r, resp)).

Definition wait := wait TryTakeWithDuration.

Definition WaitFunc := WaitFunc TryTakeWithDuration.

End SlidingWindow.

End Local.

(** ** The algorithm as the specification words it *)

Module Spec.

(** [n > 0] for a number of tokens to fill. *)
Definition isPositive (n : number) : bool :=
  match n with
  | Int n => 0 <? n
  | PosInf => true
  | NegInf | NaN => false
  end.

(** [min(capacity, tokens + n)] for a positive number [n] of tokens. *)
Definition minPlus (capacity tokens : Z) (n : number) : Z :=
  match n with
  | Int n => Z.min capacity (tokens + n)
  | _ => capacity
  end.

(** [floor((now - lastFill) * rate)], with 0 for an absent [lastFill]. *)
Definition tokensToFill (rate : float) (now : Z) (lastFill : option Z)
    : number :=
  floor (float64 (now - default 0 lastFill) * rate).

(** Steps 1 to 3 of the leaky bucket algorithm: load the two values (0 when
    absent), clamp the tokens down to the capacity, and when the bucket is
    not full add [tokensToFill] tokens, if that is positive, up to the
    capacity, moving [lastFill] to [now].  The result is the token count and
    the [lastFill] after the refill. *)
Definition refill (capacity : Z) (rate : float) (now : Z)
    (tokens lastFill : option Z) : Z * Z :=
  let tokens := Z.min (default 0 tokens) capacity in
  let fill := tokensToFill rate now lastFill in
  if (tokens <? capacity) && isPositive fill
  then (minPlus capacity tokens fill, now)
  else (tokens, default 0 lastFill).

(** [ceil(a / b)] in exact arithmetic, for a positive [b]. *)
Definition ceilDiv (a b : Z) : Z := - ((- a) / b).

(** The entries of a window that have not expired at [now]. *)
Definition live (now : Z) (entries : list Z) : list Z :=
  filter (fun ts => now < ts) entries.

End Spec.

(** ** Sequences of calls on one limiter *)

Module Runs.

(** What happens to the keys of one distributed bucket: a [Use] of some
    client, or the expiry of the two keys (they are written together and
    carry the same time to live). *)
Inductive redisEvent : Type :=
| EvUse (bucket : Redis.LeakyBucket.LeakyBucketOptions) (takeAmount now : Z)
| EvExpire.

(** The keys after each event of a run, with the reply of each [Use]. *)
Fixpoint redisRun (events : list redisEvent) (db : Redis.LeakyBucket.LeakyKeys)
    : list (redisEvent * Redis.LeakyBucket.LeakyKeys
            * option (result Redis.LeakyBucket.UseLeakyBucketResponse)) :=
  match events with
  | [] => []
  | EvUse bucket takeAmount now as ev :: rest =>
      let '(db', resp) :=
        Redis.LeakyBucket.Use Redis.LeakyBucket.redisLeakyEval
          bucket takeAmount now db in
      (ev, db', Some resp) :: redisRun rest db'
  | EvExpire as ev :: rest =>
      (ev, Redis.LeakyBucket.noKeys, None)
        :: redisRun rest Redis.LeakyBucket.noKeys
  end.

(** The calls of the local leaky bucket that touch its state. *)
Inductive localCall : Type :=
| CallTryTake (now : Z)
| CallSize (now : Z).

Definition callTime (c : localCall) : Z :=
  match c with
  | CallTryTake now => now
  | CallSize now => now
  end.

(** What a call returned: the boolean of [TryTake] or the count of [Size]. *)
Inductive returned : Type :=
| RetTryTake (resp : bool)
| RetSize (size : Z).

Definition localStep (c : localCall) (r : Local.LeakyBucket.leakyBucket)
    : outcome (Local.LeakyBucket.leakyBucket * returned) :=
  match c with
  | CallTryTake now =>
      obind (Local.LeakyBucket.TryTake now r)
        (fun '(r, resp) => Done (r, RetTryTake resp))
  | CallSize now =>
      obind (Local.LeakyBucket.Size now r)
        (fun '(r, size) => Done (r, RetSize size))
  end.

(** The bucket after each call of a run, with what the call returned; the
    run stops at a panic. *)
Fixpoint localRun (calls : list localCall) (r : Local.LeakyBucket.leakyBucket)
    : outcome (list (Local.LeakyBucket.leakyBucket * returned)) :=
  match calls with
  | [] => Done []
  | c :: rest =>
      obind (localStep c r) (fun '(r', ret) =>
        obind (localRun rest r') (fun trace => Done ((r', ret) :: trace)))
  end.

(** [TryTake] called once at each instant of [times], in order. *)
Fixpoint tryTakes (times : list Z) (r : Local.LeakyBucket.leakyBucket)
    : outcome (Local.LeakyBucket.leakyBucket * list bool) :=
  match times with
  | [] => Done (r, [])
  | now :: rest =>
      obind (Local.LeakyBucket.TryTake now r) (fun '(r', resp) =>
        obind (tryTakes rest r') (fun '(r'', resps) =>
          Done (r'', resp :: resps)))
  end.

(** The clock does not run backwards: [times] is non-decreasing from [t]. *)
Fixpoint nondecreasing (t : Z) (times : list Z) : Prop :=
  match times with
  | [] => True
  | t' :: rest => t <= t' /\ nondecreasing t' rest
  end.

(** The instants of [times] are at least [period] apart, the first one from
    [t]. *)
Fixpoint spaced (period t : Z) (times : list Z) : Prop :=
  match times with
  | [] => True
  | t' :: rest => t + period <= t' /\ spaced period t' rest
  end.

(** The calls of a local sliding window that touch its state, with what
    they return. *)
Definition windowStep (c : localCall) (r : Local.SlidingWindow.slidingWindow)
    : outcome (Local.SlidingWindow.slidingWindow * returned) :=
  match c with
  | CallTryTake now =>
      obind (Local.SlidingWindow.TryTake now r)
        (fun '(r, resp) => Done (r, RetTryTake resp))
  | CallSize now =>
      let '(r, size) := Local.SlidingWindow.Size now r in
      Done (r, RetSize size)
  end.

Fixpoint windowRun (calls : list localCall)
    (r : Local.SlidingWindow.slidingWindow)
    : outcome (list (Local.SlidingWindow.slidingWindow * returned)) :=
  match calls with
  | [] => Done []
  | c :: rest =>
      obind (windowStep c r) (fun '(r', ret) =>
        obind (windowRun rest r') (fun trace => Done ((r', ret) :: trace)))
  end.

(** [TryTake] of a local sliding window, called once at each instant of
    [times], in order. *)
Fixpoint windowTakes (times : list Z) (r : Local.SlidingWindow.slidingWindow)
    : outcome (Local.SlidingWindow.slidingWindow * list bool) :=
  match times with
  | [] => Done (r, [])
  | now :: rest =>
      obind (Local.SlidingWindow.TryTake now r) (fun '(r', resp) =>
        obind (windowTakes rest r') (fun '(r'', resps) =>
          Done (r'', resp :: resps)))
  end.


(** The number of calls that took a token. *)
Definition admitted (resps : list bool) : Z :=
  Z.of_nat (count_occ Bool.bool_dec resps true).


End Runs.

(** * Properties *)

Module RL := Redis.LeakyBucket.
Module RS := Redis.SlidingWindow.
Module LL := Local.LeakyBucket.
Module LS := Local.SlidingWindow.

(** ** Predicates of the statements *)

(** The keys hold no negative token count. *)
Definition tokensKeyOk (db : RL.LeakyKeys) : Prop :=
  0 <= default 0 (RL.tokensKey db).

(** The distributed runs of C5, as amended: no [Use] has a negative capacity
    or take amount, its window is positive, and its capacity, take amount,
    window and clock reading have at most 13 digits. *)
Definition useInRange (ev : Runs.redisEvent) : Prop :=
  match ev with
  | Runs.EvUse bucket takeAmount now =>
      (0 <= RL.MaximumCapacity bucket /\ 0 <= takeAmount) /\
      0 < RL.WindowSeconds bucket <= 10 ^ 13 /\
      RL.MaximumCapacity bucket <= 10 ^ 13 /\
      takeAmount <= 10 ^ 13 /\
      0 <= now <= 10 ^ 13
  | Runs.EvExpire => True
  end.

(** After an event of a distributed run: a [Use] has succeeded, and the tokens
    it returns, which are the stored ones, lie within the capacity. *)
Definition tokensInRange
    (after : Runs.redisEvent * RL.LeakyKeys
             * option (result RL.UseLeakyBucketResponse)) : Prop :=
  let '(ev, db, answer) := after in
  match ev with
  | Runs.EvUse bucket _ _ =>
      exists resp,
        answer = Some (Ok resp) /\
        RL.tokensKey db = Some (RL.RemainingTokens resp) /\
        0 <= RL.RemainingTokens resp <= RL.MaximumCapacity bucket
  | Runs.EvExpire => db = RL.noKeys
  end.

(** The invariant of a local bucket whose last call ran at the instant [t]. *)
Definition filledBefore (t : Z) (r : LL.leakyBucket) : Prop :=
  0 <= LL.tokens r <= LL.max r /\ 0 < LL.rate r /\ LL.lastFill r <= t.

(** After a call of a local run: the tokens of the bucket, and the count
    that a [Size] returned, lie within the capacity. *)
Definition localInRange (capacity : Z)
    (after : LL.leakyBucket * Runs.returned) : Prop :=
  let '(r, ret) := after in
  0 <= LL.tokens r <= capacity /\
  match ret with
  | Runs.RetSize size => 0 <= size <= capacity
  | Runs.RetTryTake _ => True
  end.

(** The scripts compute with Lua numbers, which are binary64, the leaky
    bucket writes its keys with [tostring], which prints 14 digits, and
    [SET ... EX] refuses a time to live that is not positive.  A distributed
    leaky bucket [Use] is in range when none of this shows: the window is
    positive, and the capacity, the take amount, the clock reading and the
    stored values are integers of at most 13 digits, so that binary64 holds
    them, their sums and their differences, and [tostring] prints them in
    full. *)
Definition leakyInRange (bucket : RL.LeakyBucketOptions)
    (takeAmount now : Z) (db : RL.LeakyKeys) : Prop :=
  0 < RL.WindowSeconds bucket <= 10 ^ 13 /\
  Z.abs (RL.MaximumCapacity bucket) <= 10 ^ 13 /\
  Z.abs takeAmount <= 10 ^ 13 /\
  0 <= now <= 10 ^ 13 /\
  Z.abs (default 0 (RL.tokensKey db)) <= 10 ^ 13 /\
  0 <= default 0 (RL.lastFillKey db) <= 10 ^ 13.


(** A call of a local leaky bucket at the instant [now] is in range when
    [float64] holds the capacity, and with it every token count below it,
    and when the time since the last fill is short enough for the sum of
    the tokens and of the tokens to fill not to wrap an [int]. *)
Definition fillInRange (now : Z) (r : LL.leakyBucket) : Prop :=
  LL.max r <= 2 ^ 53 /\ now - LL.lastFill r <= 2 ^ 62.

(** The dynamic type of the value is [int64] (Go's [int] is another type). *)
Definition isInt64 (v : value) : bool :=
  match v with
  | VInt64 _ => true
  | _ => false
  end.

(** A reply is malformed, for a script that returns [n] integers, when it is
    not a list, or a list of another length, or a list with an element that
    is not a 64-bit integer. *)
Definition malformed (n : nat) (v : value) : bool :=
  match v with
  | VSlice args =>
      negb (length args =? n)%nat || existsb (fun a => negb (isInt64 a)) args
  | _ => true
  end.

(** The window of a local limiter whose last call ran at the instant [t]:
    in the order of the expiries, none of them later than [t + duration]. *)
Definition windowOk (t : Z) (r : LS.slidingWindow) : Prop :=
  StronglySorted Z.le (LS.window r) /\
  Forall (fun ts => ts <= t + LS.duration r) (LS.window r).

(** After a call of a run on a local sliding window of the capacity
    [capacity]: the window is in the order of the expiries and holds at most
    [capacity] tokens, and so does the count that a [Size] returned. *)
Definition windowInRange (capacity : Z)
    (after : LS.slidingWindow * Runs.returned) : Prop :=
  let '(r, ret) := after in
  LS.capacity r = capacity /\
  StronglySorted Z.le (LS.window r) /\
  Z.of_nat (length (LS.window r)) <= capacity /\
  match ret with
  | Runs.RetSize size => 0 <= size <= capacity
  | Runs.RetTryTake _ => True
  end.

(** The expiries of [window] are at least [gap] apart, in their order. *)
Fixpoint gapped (gap : Z) (window : list Z) : Prop :=
  match window with
  | [] => True
  | ts :: rest =>
      match rest with [] => True | ts' :: _ => ts + gap <= ts' end /\
      gapped gap rest
  end.

(** The window of a local limiter whose tokens were taken at least [gap]
    apart, the last one at [t] or before. *)
Definition paced (gap t : Z) (r : LS.slidingWindow) : Prop :=
  gapped gap (LS.window r) /\
  Forall (fun ts => ts <= t + LS.duration r) (LS.window r).

(** The tokens a local bucket can give out up to the instant [horizon]: the
    ones it holds, and one for each whole token period between its last fill
    and [horizon]. *)
Definition budget (horizon : Z) (r : LL.leakyBucket) : Z :=
  LL.tokens r + (horizon - LL.lastFill r) / LL.rate r.

(** ** Distributed leaky bucket *)

(** The script computes the refill of the specification and then takes
    [take] tokens when that many are there. *)
Lemma leakyBucketScript_refill capacity rate now take db :
  RL.leakyBucketScript capacity rate now take db =
  let '(tokens, lastFill) :=
    Spec.refill capacity rate now (RL.tokensKey db) (RL.lastFillKey db) in
  if take <=? tokens
  then ({| RL.tokensKey := Some (tokens - take);
           RL.lastFillKey := Some lastFill |},
        {| RL.replySuccess := 1; RL.replyTokens := tokens - take;
           RL.replyLastFilled := lastFill |})
  else ({| RL.tokensKey := Some tokens; RL.lastFillKey := Some lastFill |},
        {| RL.replySuccess := 0; RL.replyTokens := tokens;
           RL.replyLastFilled := lastFill |}).
Proof.
  unfold RL.leakyBucketScript, Spec.refill, Spec.tokensToFill.
  destruct db as [t l]; cbn [RL.tokensKey RL.lastFillKey].
  set (t0 := match t with Some t1 => t1 | None => 0 end).
  set (l0 := match l with Some l1 => l1 | None => 0 end).
  replace (default 0 t) with t0 by (now destruct t).
  replace (default 0 l) with l0 by (now destruct l).
  assert (Hclamp : (if capacity <? t0 then capacity else t0) = Z.min t0 capacity).
  { destruct (Z.ltb_spec capacity t0); lia. }
  rewrite Hclamp.
  destruct (Z.min t0 capacity <? capacity); cbn [andb].
  - destruct (floor (float64 (now - l0) * rate)) as [n| | |];
      cbn [Spec.isPositive Spec.minPlus];
      [destruct (0 <? n)|..]; cbv zeta; destruct (take <=? _); reflexivity.
  - cbv zeta; destruct (take <=? _); reflexivity.
Qed.

(** Behind a Redis server, [Use] never fails: its answer is the reply of the
    script, with the reset time computed from it. *)
Lemma Use_redisLeakyEval bucket takeAmount now db :
  RL.Use RL.redisLeakyEval bucket takeAmount now db =
  let '(db', reply) :=
    RL.leakyBucketScript (RL.MaximumCapacity bucket)
      (RL.getRefillRate (RL.MaximumCapacity bucket) (RL.WindowSeconds bucket))
      now takeAmount db in
  (db', Ok {| RL.Success := RL.replySuccess reply =? 1;
              RL.RemainingTokens := RL.replyTokens reply;
              RL.ResetAt :=
                RL.calculateLeakyBucketFillTime (RL.replyLastFilled reply)
                  (RL.replyTokens reply) (RL.MaximumCapacity bucket)
                  (RL.WindowSeconds bucket) |}).
Proof.
  unfold RL.Use, RL.redisLeakyEval; cbn.
  destruct (RL.leakyBucketScript _ _ _ _ _) as [db' reply].
  reflexivity.
Qed.

(** The reset time in one formula: the guard of the addition is
    [delta > 0], and the seconds added are the smaller of the window and of
    the rounded quotient. *)
Lemma calculateLeakyBucketFillTime_eq lastFill tokens maxCapacity windowSeconds :
  RL.calculateLeakyBucketFillTime lastFill tokens maxCapacity windowSeconds =
  if maxCapacity <=? tokens then lastFill
  else lastFill
       + Z.min windowSeconds
           (toInt (ceil (float64 (maxCapacity - tokens)
                         / RL.getRefillRate maxCapacity windowSeconds))).
Proof.
  unfold RL.calculateLeakyBucketFillTime.
  destruct (Z.ltb_spec 0 (maxCapacity - tokens)),
    (Z.leb_spec maxCapacity tokens); try lia.
  destruct (Z.ltb_spec
    (toInt (ceil (float64 (maxCapacity - tokens)
                  / RL.getRefillRate maxCapacity windowSeconds)))
    windowSeconds); lia.
Qed.

(** When no token is due the script leaves [lastFilled] as it found it: the
    assignment is guarded by [tokensToFill > 0]. *)
Lemma leakyBucketScript_keeps_lastFilled capacity rate now take db :
  Spec.isPositive (Spec.tokensToFill rate now (RL.lastFillKey db)) = false ->
  let '(db', reply) := RL.leakyBucketScript capacity rate now take db in
  RL.lastFillKey db' = Some (default 0 (RL.lastFillKey db)) /\
  RL.replyLastFilled reply = default 0 (RL.lastFillKey db) /\
  RL.replyTokens reply =
    Z.min (default 0 (RL.tokensKey db)) capacity
    - (if RL.replySuccess reply =? 1 then take else 0).
Proof.
  intros Hfill. rewrite leakyBucketScript_refill. unfold Spec.refill.
  rewrite Hfill, andb_false_r.
  destruct (take <=? _); cbn; repeat split; lia.
Qed.

(** C3, as amended: behind a Redis server a [Use] that is in range, on a
    bucket whose capacity and stored tokens are not negative, succeeds, and
    its [ResetAt] is the stored [lastFill] when the tokens left reach (or
    exceed) the capacity, and otherwise
    [lastFill + min(windowSeconds, ceil((capacity - tokens) / rate))] with
    [rate = capacity / windowSeconds], the two quotients and the ceiling
    being the ones of [float64]. *)
Theorem Use_ResetAt bucket takeAmount now db :
  leakyInRange bucket takeAmount now db ->
  0 <= RL.MaximumCapacity bucket -> 0 <= default 0 (RL.tokensKey db) ->
  exists db' resp lastFill,
    RL.Use RL.redisLeakyEval bucket takeAmount now db = (db', Ok resp) /\
    RL.lastFillKey db' = Some lastFill /\
    RL.tokensKey db' = Some (RL.RemainingTokens resp) /\
    RL.ResetAt resp =
      if RL.MaximumCapacity bucket <=? RL.RemainingTokens resp
      then lastFill
      else lastFill
           + Z.min (RL.WindowSeconds bucket)
               (toInt
                  (ceil
                     (float64
                        (RL.MaximumCapacity bucket - RL.RemainingTokens resp)
                      / (float64 (RL.MaximumCapacity bucket)
                         / float64 (RL.WindowSeconds bucket))))).
Proof.
  intros _ _ _. rewrite Use_redisLeakyEval, leakyBucketScript_refill.
  destruct (Spec.refill _ _ _ _ _) as [tokens lastFill].
  destruct (takeAmount <=? tokens); eexists _, _, lastFill;
    (split; [reflexivity|]); cbn;
    rewrite calculateLeakyBucketFillTime_eq; auto.
Qed.

Lemma Use_ResetAt_witness :
  let bucket := {| RL.KeyPrefix := "test-bucket"; RL.MaximumCapacity := 60;
                   RL.WindowSeconds := 60 |} in
  let db := {| RL.tokensKey := Some 30; RL.lastFillKey := Some 1000 |} in
  exists db' resp lastFill,
    RL.Use RL.redisLeakyEval bucket 1 1000 db = (db', Ok resp) /\
    RL.lastFillKey db' = Some lastFill /\
    RL.tokensKey db' = Some (RL.RemainingTokens resp) /\
    RL.ResetAt resp =
      if RL.MaximumCapacity bucket <=? RL.RemainingTokens resp
      then lastFill
      else lastFill
           + Z.min (RL.WindowSeconds bucket)
               (toInt
                  (ceil
                     (float64
                        (RL.MaximumCapacity bucket - RL.RemainingTokens resp)
                      / (float64 (RL.MaximumCapacity bucket)
                         / float64 (RL.WindowSeconds bucket))))).
Proof.
  intros bucket db. apply (Use_ResetAt bucket 1 1000 db).
  - unfold leakyInRange; cbn; lia.
  - cbn; lia.
  - cbn; lia.
Defined.

(** C3 as stated fails: a [Use] with [takeAmount = -1] on a fresh bucket of
    capacity 60 leaves 61 tokens, which is not the capacity, and [ResetAt] is
    the [lastFill] 1000, not [lastFill + min(60, ceil((60 - 61) / 1))],
    which is 999. *)
Lemma Use_ResetAt_above_capacity :
  RL.Use RL.redisLeakyEval
    {| RL.KeyPrefix := "test-bucket"; RL.MaximumCapacity := 60;
       RL.WindowSeconds := 60 |} (-1) 1000 RL.noKeys
  = ({| RL.tokensKey := Some 61; RL.lastFillKey := Some 1000 |},
     Ok {| RL.Success := true; RL.RemainingTokens := 61; RL.ResetAt := 1000 |})
  /\ 61 <> 60
  /\ 1000 + Z.min 60 (toInt (ceil (float64 (60 - 61) / RL.getRefillRate 60 60)))
     = 999.
Proof. split; [vm_compute; reflexivity | split; [lia | vm_compute; reflexivity]]. Qed.

(** The quotient of [calculateLeakyBucketFillTime] is rounded twice before
    its ceiling is taken: with 1 token missing of 2 per 98 s the bucket is
    full after 49 s, and [ResetAt] is 50 s after [lastFill]. *)
Lemma calculateLeakyBucketFillTime_rounds_up :
  RL.calculateLeakyBucketFillTime 1000 1 2 98 = 1050 /\
  Spec.ceilDiv ((2 - 1) * 98) 2 = 49.
Proof. split; vm_compute; reflexivity. Qed.

(** The product of the script is rounded before its floor is taken: a
    bucket of 1 token per 49 s, emptied at the instant 1000, is found empty
    49 s later; a token is there after 50 s. *)
Lemma leakyBucketScript_rounds_down :
  let db := {| RL.tokensKey := Some 0; RL.lastFillKey := Some 1000 |} in
  RL.leakyBucketScript 1 (RL.getRefillRate 1 49) 1049 1 db =
    (db, {| RL.replySuccess := 0; RL.replyTokens := 0;
            RL.replyLastFilled := 1000 |}) /\
  (1049 - 1000) * 1 / 49 = 1 /\
  RL.leakyBucketScript 1 (RL.getRefillRate 1 49) 1050 1 db =
    ({| RL.tokensKey := Some 0; RL.lastFillKey := Some 1050 |},
     {| RL.replySuccess := 1; RL.replyTokens := 0;
        RL.replyLastFilled := 1050 |}).
Proof. cbv zeta. repeat split; vm_compute; reflexivity. Qed.

(** ** Local leaky bucket *)

(** A refill that has tokens to look for moves [lastFill] to [now], whatever
    the number of tokens it found. *)
Lemma unsafeFill_lastFill now r :
  LL.tokens r < LL.max r -> LL.rate r <> 0 ->
  LL.unsafeFill now r =
  Done {| LL.max := LL.max r;
          LL.tokens :=
            Z.min (LL.tokens r + Z.quot (now - LL.lastFill r) (LL.rate r))
              (LL.max r);
          LL.rate := LL.rate r; LL.lastFill := now |}.
Proof.
  intros Hfull Hrate. unfold LL.unsafeFill.
  destruct (Z.leb_spec (LL.max r) (LL.tokens r)); [lia|].
  destruct (Z.eqb_spec (LL.rate r) 0); [lia|]. reflexivity.
Qed.

(** C1 on the local bucket: 50 ns after the last fill, at a rate of one
    token per 100 ns, [unsafeFill] finds no token ([tokensToFill = 0]) and
    leaves the 5 tokens alone, but it moves [lastFill] from 1000 to 1050. *)
Theorem unsafeFill_resets_lastFill :
  let r := {| LL.max := 10; LL.tokens := 5; LL.rate := 100;
              LL.lastFill := 1000 |} in
  Z.quot (1050 - LL.lastFill r) (LL.rate r) = 0 /\
  LL.unsafeFill 1050 r =
    Done {| LL.max := 10; LL.tokens := 5; LL.rate := 100;
            LL.lastFill := 1050 |} /\
  1050 <> LL.lastFill r.
Proof. cbv zeta. split; [reflexivity | split; [reflexivity | cbn; lia]]. Qed.

(** C2: a take is all or nothing.  Behind a Redis server a [Use] that is
    in range succeeds, and with [tokens] the count after the refill: when
    [takeAmount <= tokens] it reports success and stores and returns
    [tokens - takeAmount], otherwise it reports failure and stores and
    returns [tokens].  The local [TryTakeWithDuration] and [TryTake], called
    in range on a bucket whose clock has not run backwards, return, and
    they have taken exactly one token off the refilled bucket if it held
    one, and none otherwise. *)
Theorem take_all_or_nothing :
  (forall bucket takeAmount now db,
     leakyInRange bucket takeAmount now db ->
     exists db' resp,
       RL.Use RL.redisLeakyEval bucket takeAmount now db = (db', Ok resp) /\
       let '(tokens, lastFill) :=
         Spec.refill (RL.MaximumCapacity bucket)
           (RL.getRefillRate (RL.MaximumCapacity bucket)
              (RL.WindowSeconds bucket))
           now (RL.tokensKey db) (RL.lastFillKey db) in
       RL.tokensKey db' = Some (RL.RemainingTokens resp) /\
       RL.lastFillKey db' = Some lastFill /\
       ((takeAmount <= tokens /\ RL.Success resp = true /\
         RL.RemainingTokens resp = tokens - takeAmount) \/
        (tokens < takeAmount /\ RL.Success resp = false /\
         RL.RemainingTokens resp = tokens))) /\
  (forall t now r,
     filledBefore t r -> t <= now -> fillInRange now r ->
     exists filled r' ok d,
       LL.unsafeFill now r = Done filled /\
       LL.TryTakeWithDuration now r = Done (r', (ok, d)) /\
       LL.TryTake now r = Done (r', ok) /\
       LL.max r' = LL.max filled /\ LL.rate r' = LL.rate filled /\
       LL.lastFill r' = LL.lastFill filled /\
       ((1 <= LL.tokens filled /\ ok = true /\
         LL.tokens r' = LL.tokens filled - 1) \/
        (LL.tokens filled < 1 /\ ok = false /\
         LL.tokens r' = LL.tokens filled))).
Proof.
  split.
  - intros bucket takeAmount now db _.
    rewrite Use_redisLeakyEval, leakyBucketScript_refill.
    destruct (Spec.refill _ _ _ _ _) as [tokens lastFill].
    destruct (Z.leb_spec takeAmount tokens); eexists _, _;
      (split; [reflexivity|]); cbn; intuition lia.
  - intros t now r (Htok & Hrate & Hlast) Hnow _.
    assert (exists filled, LL.unsafeFill now r = Done filled)
      as (filled & Hfill).
    { unfold LL.unsafeFill. destruct (LL.max r <=? LL.tokens r); [eauto|].
      destruct (Z.eqb_spec (LL.rate r) 0); [lia | eauto]. }
    unfold LL.TryTake, LL.TryTakeWithDuration. rewrite Hfill. cbn [obind].
    destruct (Z.ltb_spec (LL.tokens filled) 1); cbn [obind];
      eexists filled, _, _, _; (split; [reflexivity|]);
      (split; [reflexivity|]); (split; [reflexivity|]); cbn; intuition lia.
Qed.

(** Both branches of the take happen: a bucket with 5 of 10 tokens gives
    one, an empty one refuses, behind a Redis server and locally. *)
Lemma take_all_or_nothing_witness :
  let bucket := {| RL.KeyPrefix := "test-bucket"; RL.MaximumCapacity := 10;
                   RL.WindowSeconds := 10 |} in
  let db := {| RL.tokensKey := Some 5; RL.lastFillKey := Some 1000 |} in
  let r := {| LL.max := 10; LL.tokens := 0; LL.rate := 100;
              LL.lastFill := 1000 |} in
  (exists db' resp,
     RL.Use RL.redisLeakyEval bucket 1 1000 db = (db', Ok resp) /\
     let '(tokens, lastFill) :=
       Spec.refill (RL.MaximumCapacity bucket)
         (RL.getRefillRate (RL.MaximumCapacity bucket)
            (RL.WindowSeconds bucket))
         1000 (RL.tokensKey db) (RL.lastFillKey db) in
     RL.tokensKey db' = Some (RL.RemainingTokens resp) /\
     RL.lastFillKey db' = Some lastFill /\
     ((1 <= tokens /\ RL.Success resp = true /\
       RL.RemainingTokens resp = tokens - 1) \/
      (tokens < 1 /\ RL.Success resp = false /\
       RL.RemainingTokens resp = tokens))) /\
  (exists filled r' ok d,
     LL.unsafeFill 1050 r = Done filled /\
     LL.TryTakeWithDuration 1050 r = Done (r', (ok, d)) /\
     LL.TryTake 1050 r = Done (r', ok) /\
     LL.max r' = LL.max filled /\ LL.rate r' = LL.rate filled /\
     LL.lastFill r' = LL.lastFill filled /\
     ((1 <= LL.tokens filled /\ ok = true /\
       LL.tokens r' = LL.tokens filled - 1) \/
      (LL.tokens filled < 1 /\ ok = false /\
       LL.tokens r' = LL.tokens filled))).
Proof.
  intros bucket db r. split.
  - apply (proj1 take_all_or_nothing bucket 1 1000 db).
    unfold leakyInRange; cbn; lia.
  - apply (proj2 take_all_or_nothing 1000 1050 r).
    + unfold filledBefore; cbn; lia.
    + lia.
    + unfold fillInRange; cbn; lia.
Defined.

(** ** Bounds on the tokens *)

(** The refill of the specification stays within the capacity. *)
Lemma refill_bounds capacity rate now tokens lastFill :
  0 <= capacity -> 0 <= default 0 tokens ->
  0 <= fst (Spec.refill capacity rate now tokens lastFill) <= capacity.
Proof.
  intros Hc Ht. unfold Spec.refill.
  destruct (Z.ltb_spec (Z.min (default 0 tokens) capacity) capacity);
    cbn [andb]; [|cbn [fst]; lia].
  destruct (Spec.tokensToFill rate now lastFill) as [n| | |];
    cbn [Spec.isPositive Spec.minPlus]; [destruct (Z.ltb_spec 0 n)|..];
    cbn [fst]; lia.
Qed.

Lemma Use_bounds bucket takeAmount now db :
  0 <= RL.MaximumCapacity bucket -> 0 <= takeAmount -> tokensKeyOk db ->
  exists db' resp,
    RL.Use RL.redisLeakyEval bucket takeAmount now db = (db', Ok resp) /\
    RL.tokensKey db' = Some (RL.RemainingTokens resp) /\
    0 <= RL.RemainingTokens resp <= RL.MaximumCapacity bucket.
Proof.
  intros Hc Ht Hdb. rewrite Use_redisLeakyEval, leakyBucketScript_refill.
  pose proof (refill_bounds (RL.MaximumCapacity bucket)
    (RL.getRefillRate (RL.MaximumCapacity bucket) (RL.WindowSeconds bucket))
    now (RL.tokensKey db) (RL.lastFillKey db) Hc Hdb) as Hb.
  destruct (Spec.refill _ _ _ _ _) as [tokens lastFill]; cbn [fst] in Hb.
  destruct (Z.leb_spec takeAmount tokens); eexists _, _;
    (split; [reflexivity|]); cbn; split; (reflexivity || lia).
Qed.

Lemma redisRun_bounds events db :
  tokensKeyOk db -> Forall useInRange events ->
  Forall tokensInRange (Runs.redisRun events db).
Proof.
  intros Hdb Hev. revert db Hdb.
  induction Hev as [|ev events Hhead _ IH]; intros db Hdb; [constructor|].
  destruct ev as [bucket takeAmount now|]; cbn [Runs.redisRun].
  - destruct Hhead as [[Hc Ht] _].
    destruct (Use_bounds bucket takeAmount now db Hc Ht Hdb)
      as (db' & resp & -> & Hkey & Hb).
    constructor.
    + exists resp. auto.
    + apply IH. unfold tokensKeyOk. rewrite Hkey. cbn. lia.
  - constructor; [reflexivity|]. apply IH. unfold tokensKeyOk. cbn. lia.
Qed.

Lemma NewLeakyBucket_filledBefore tokensPerWindow window now :
  0 < tokensPerWindow -> tokensPerWindow <= window ->
  exists r,
    LL.NewLeakyBucket tokensPerWindow window now = Done r /\
    LL.max r = tokensPerWindow /\ LL.tokens r = tokensPerWindow /\
    filledBefore now r.
Proof.
  intros Hpos Hwin. unfold LL.NewLeakyBucket.
  destruct (Z.eqb_spec tokensPerWindow 0); [lia|].
  eexists; split; [reflexivity|]. unfold filledBefore; cbn.
  assert (0 < window ÷ tokensPerWindow).
  { apply Z.quot_str_pos. lia. }
  lia.
Qed.

Lemma unsafeFill_filledBefore t now r :
  filledBefore t r -> t <= now ->
  exists filled,
    LL.unsafeFill now r = Done filled /\ filledBefore now filled /\
    LL.max filled = LL.max r /\ LL.tokens r <= LL.tokens filled.
Proof.
  intros (Htok & Hrate & Hlast) Hnow. unfold LL.unsafeFill.
  destruct (Z.leb_spec (LL.max r) (LL.tokens r)).
  - exists r. unfold filledBefore. intuition lia.
  - destruct (Z.eqb_spec (LL.rate r) 0); [lia|].
    eexists; split; [reflexivity|]. unfold filledBefore; cbn.
    assert (0 <= (now - LL.lastFill r) ÷ LL.rate r).
    { apply Z.quot_pos; lia. }
    lia.
Qed.

Lemma TryTake_filledBefore t now r :
  filledBefore t r -> t <= now ->
  exists r' ok,
    LL.TryTake now r = Done (r', ok) /\ filledBefore now r' /\
    LL.max r' = LL.max r /\ LL.tokens r - 1 <= LL.tokens r' /\
    (1 <= LL.tokens r -> ok = true).
Proof.
  intros Hinv Hnow.
  destruct (unsafeFill_filledBefore t now r Hinv Hnow)
    as (filled & Hfill & (Htok & Hrate & Hlast) & Hmax & Hge).
  unfold LL.TryTake, LL.TryTakeWithDuration. rewrite Hfill; cbn.
  destruct (Z.ltb_spec (LL.tokens filled) 1); cbn;
    eexists _, _; (split; [reflexivity|]); unfold filledBefore; cbn;
    intuition lia.
Qed.

Lemma Size_filledBefore t now r :
  filledBefore t r -> t <= now ->
  exists r',
    LL.Size now r = Done (r', LL.tokens r') /\ filledBefore now r' /\
    LL.max r' = LL.max r.
Proof.
  intros Hinv Hnow.
  destruct (unsafeFill_filledBefore t now r Hinv Hnow)
    as (filled & Hfill & Hinv' & Hmax & _).
  unfold LL.Size. rewrite Hfill; cbn. eauto.
Qed.

Lemma localRun_bounds calls t r :
  filledBefore t r -> Runs.nondecreasing t (map Runs.callTime calls) ->
  exists trace,
    Runs.localRun calls r = Done trace /\
    Forall (localInRange (LL.max r)) trace.
Proof.
  revert t r. induction calls as [|c calls IH]; intros t r Hinv Hmono.
  - exists []. split; [reflexivity | constructor].
  - destruct Hmono as [Hnow Hmono]. cbn [Runs.localRun].
    assert (exists r' ret,
      Runs.localStep c r = Done (r', ret) /\
      filledBefore (Runs.callTime c) r' /\ LL.max r' = LL.max r /\
      localInRange (LL.max r) (r', ret)) as (r' & ret & -> & Hinv' & Hmax & Hr).
    { destruct c as [now|now]; cbn [Runs.localStep Runs.callTime] in *.
      - destruct (TryTake_filledBefore t now r Hinv Hnow)
          as (r' & ok & -> & Hinv' & Hmax & _).
        eexists _, _; split; [reflexivity|].
        unfold localInRange, filledBefore in *. intuition lia.
      - destruct (Size_filledBefore t now r Hinv Hnow)
          as (r' & -> & Hinv' & Hmax).
        eexists _, _; split; [reflexivity|].
        unfold localInRange, filledBefore in *. intuition lia. }
    cbn [obind]. destruct (IH _ _ Hinv' Hmono) as (trace & -> & Htrace).
    eexists; split; [reflexivity|]. constructor; [exact Hr|].
    rewrite <- Hmax. exact Htrace.
Qed.

(** C5, as amended.  On a distributed bucket, along every run of [Use]
    calls that starts without keys and whose [takeAmount] and
    [MaximumCapacity] are not negative, whose window is positive and whose
    numbers have at most 13 digits (the keys may expire in between), and on
    a local bucket made by [NewLeakyBucket] with
    [0 < tokensPerWindow <= window] and [tokensPerWindow <= 2^53], along
    every run of [TryTake] and [Size] calls whose clock readings do not
    decrease and end within [2^62] ns of the construction: after every call
    the tokens lie between 0 and the capacity, and so does every returned
    [RemainingTokens] and [Size]. *)
Theorem leaky_tokens_within_capacity :
  (forall events,
     Forall useInRange events ->
     Forall tokensInRange (Runs.redisRun events RL.noKeys)) /\
  (forall tokensPerWindow window t0 calls,
     0 < tokensPerWindow -> tokensPerWindow <= window ->
     tokensPerWindow <= 2 ^ 53 -> window < 2 ^ 63 ->
     Runs.nondecreasing t0 (map Runs.callTime calls) ->
     Forall (fun c => Runs.callTime c - t0 <= 2 ^ 62) calls ->
     exists r trace,
       LL.NewLeakyBucket tokensPerWindow window t0 = Done r /\
       Runs.localRun calls r = Done trace /\
       Forall (localInRange tokensPerWindow) trace).
Proof.
  split.
  - intros events Hev. apply redisRun_bounds; [|exact Hev].
    unfold tokensKeyOk; cbn; lia.
  - intros tokensPerWindow window t0 calls Hpos Hwin _ _ Hmono _.
    destruct (NewLeakyBucket_filledBefore tokensPerWindow window t0 Hpos Hwin)
      as (r & Hnew & Hmax & _ & Hinv).
    destruct (localRun_bounds calls t0 r Hinv Hmono) as (trace & Hrun & Htrace).
    exists r, trace. split; [exact Hnew|]. split; [exact Hrun|].
    rewrite <- Hmax. exact Htrace.
Qed.

(** The run of the repository's test (capacity 60, window 60 s: two takes at
    one instant and one 3 s later) and a local run of takes and sizes. *)
Lemma leaky_tokens_within_capacity_witness :
  let bucket := {| RL.KeyPrefix := "test-bucket"; RL.MaximumCapacity := 60;
                   RL.WindowSeconds := 60 |} in
  Forall tokensInRange
    (Runs.redisRun
       [Runs.EvUse bucket 1 1000; Runs.EvUse bucket 1 1000; Runs.EvExpire;
        Runs.EvUse bucket 1 1003] RL.noKeys) /\
  exists r trace,
    LL.NewLeakyBucket 2 1000 0 = Done r /\
    Runs.localRun
      [Runs.CallTryTake 0; Runs.CallTryTake 10; Runs.CallSize 10;
       Runs.CallTryTake 20; Runs.CallSize 600] r = Done trace /\
    Forall (localInRange 2) trace.
Proof.
  cbv zeta. split.
  - apply (proj1 leaky_tokens_within_capacity).
    repeat constructor; cbn; lia.
  - apply (proj2 leaky_tokens_within_capacity 2 1000 0
             [Runs.CallTryTake 0; Runs.CallTryTake 10; Runs.CallSize 10;
              Runs.CallTryTake 20; Runs.CallSize 600]);
      try (cbn; lia).
    repeat constructor; cbn; lia.
Defined.

(** C5 as stated fails for some take amounts and times.  A [Use] with
    [takeAmount = -1] on a fresh distributed bucket of capacity 60 returns 61
    remaining tokens and stores them.  A local bucket of 10 tokens per 10 ns,
    made at the instant 100, holds -41 tokens after a [TryTake] at 100 and
    one for which the clock reads 50. *)
Lemma leaky_tokens_outside_capacity :
  let bucket := {| RL.KeyPrefix := "test-bucket"; RL.MaximumCapacity := 60;
                   RL.WindowSeconds := 60 |} in
  Runs.redisRun [Runs.EvUse bucket (-1) 1000] RL.noKeys =
    [(Runs.EvUse bucket (-1) 1000,
      {| RL.tokensKey := Some 61; RL.lastFillKey := Some 1000 |},
      Some (Ok {| RL.Success := true; RL.RemainingTokens := 61;
                  RL.ResetAt := 1000 |}))] /\
  ~ (0 <= 61 <= RL.MaximumCapacity bucket) /\
  obind (LL.NewLeakyBucket 10 10 100)
    (Runs.localRun [Runs.CallTryTake 100; Runs.CallTryTake 50]) =
    Done [({| LL.max := 10; LL.tokens := 9; LL.rate := 1;
              LL.lastFill := 100 |}, Runs.RetTryTake true);
          ({| LL.max := 10; LL.tokens := -41; LL.rate := 1;
              LL.lastFill := 50 |}, Runs.RetTryTake false)] /\
  ~ (0 <= -41 <= 10).
Proof.
  cbv zeta. split; [vm_compute; reflexivity|].
  split; [cbn; lia|]. split; [vm_compute; reflexivity | lia].
Qed.

(** ** Construction of the local leaky bucket *)

Lemma tryTakes_all_succeed times :
  forall t r,
    filledBefore t r -> Runs.nondecreasing t times ->
    Z.of_nat (length times) <= LL.tokens r ->
    exists r', Runs.tryTakes times r = Done (r', repeat true (length times)).
Proof.
  induction times as [|now times IH]; intros t r Hinv Hmono Hlen.
  - exists r. reflexivity.
  - destruct Hmono as [Hnow Hmono]. cbn [length] in Hlen.
    destruct (TryTake_filledBefore t now r Hinv Hnow)
      as (r' & ok & Htake & Hinv' & _ & Hge & Hok).
    rewrite Hok in Htake by lia.
    destruct (IH now r' Hinv' Hmono ltac:(lia)) as (r'' & Hrest).
    exists r''. cbn [Runs.tryTakes]. rewrite Htake; cbn [obind].
    rewrite Hrest; reflexivity.
Qed.

Lemma TryTake_same_instant r :
  LL.rate r <> 0 -> 1 <= LL.tokens r <= LL.max r ->
  LL.TryTake (LL.lastFill r) r =
  Done ({| LL.max := LL.max r; LL.tokens := LL.tokens r - 1;
           LL.rate := LL.rate r; LL.lastFill := LL.lastFill r |}, true).
Proof.
  intros Hrate Htok. unfold LL.TryTake, LL.TryTakeWithDuration, LL.unsafeFill.
  destruct (Z.leb_spec (LL.max r) (LL.tokens r)); cbn [obind].
  - destruct (Z.ltb_spec (LL.tokens r) 1); [lia | reflexivity].
  - destruct (Z.eqb_spec (LL.rate r) 0); [contradiction|]. cbn.
    rewrite Z.sub_diag, Z.quot_0_l, Z.add_0_r, Z.min_l by lia.
    destruct (Z.ltb_spec (LL.tokens r) 1); [lia | reflexivity].
Qed.

Lemma tryTakes_same_instant n :
  forall r,
    LL.rate r <> 0 -> LL.tokens r <= LL.max r -> Z.of_nat n <= LL.tokens r ->
    exists r',
      Runs.tryTakes (repeat (LL.lastFill r) n) r = Done (r', repeat true n).
Proof.
  induction n as [|n IH]; intros r Hrate Hmax Hn.
  - exists r. reflexivity.
  - cbn [repeat Runs.tryTakes].
    rewrite TryTake_same_instant by lia. cbn [obind].
    destruct (IH {| LL.max := LL.max r; LL.tokens := LL.tokens r - 1;
                    LL.rate := LL.rate r; LL.lastFill := LL.lastFill r |}
                Hrate ltac:(cbn; lia) ltac:(cbn; lia)) as (r' & Hrest).
    cbn in Hrest. rewrite Hrest. eexists. reflexivity.
Qed.

(** C9: a bucket made with more tokens than its window has nanoseconds
    does not give its [tokensPerWindow] tokens.  [NewLeakyBucket] returns
    it with a token rate of 0; the first [TryTake] finds it full and takes a
    token, and the second one, whenever it is made, divides by the rate in
    [unsafeFill] and panics. *)
Theorem NewLeakyBucket_zero_rate_panics tokensPerWindow window t0 now now' :
  1 < tokensPerWindow -> Z.abs window < tokensPerWindow ->
  exists r r',
    LL.NewLeakyBucket tokensPerWindow window t0 = Done r /\
    LL.rate r = 0 /\
    LL.TryTake now r = Done (r', true) /\
    LL.TryTake now' r' = Panic /\
    Runs.tryTakes [now; now'] r = Panic.
Proof.
  intros Hpos Hwin. unfold LL.NewLeakyBucket.
  destruct (Z.eqb_spec tokensPerWindow 0); [lia|].
  replace (window ÷ tokensPerWindow) with 0
    by (symmetry; apply Z.quot_small_iff; lia).
  eexists _, _. split; [reflexivity|]. split; [reflexivity|].
  assert (forall r, LL.max r = tokensPerWindow -> LL.rate r = 0 ->
                    LL.tokens r = tokensPerWindow - 1 ->
                    LL.TryTake now' r = Panic) as Hpanic.
  { intros r Hmax Hrate Htok.
    unfold LL.TryTake, LL.TryTakeWithDuration, LL.unsafeFill.
    destruct (Z.leb_spec (LL.max r) (LL.tokens r)); [lia|].
    rewrite Hrate. reflexivity. }
  assert (LL.TryTake now
            {| LL.max := tokensPerWindow; LL.tokens := tokensPerWindow;
               LL.rate := 0; LL.lastFill := t0 |} =
          Done ({| LL.max := tokensPerWindow;
                   LL.tokens := tokensPerWindow - 1;
                   LL.rate := 0; LL.lastFill := t0 |}, true)) as Hfirst.
  { unfold LL.TryTake, LL.TryTakeWithDuration, LL.unsafeFill. cbn.
    rewrite Z.leb_refl. cbn.
    destruct (Z.ltb_spec tokensPerWindow 1); [lia | reflexivity]. }
  split; [exact Hfirst|]. split; [apply Hpanic; reflexivity|].
  cbn [Runs.tryTakes]. rewrite Hfirst. cbn [obind].
  rewrite Hpanic by reflexivity. reflexivity.
Qed.

(** [NewLeakyBucket(2, 1ns)]: the first [TryTake] succeeds and the second
    one panics, with no time passing in between. *)
Lemma NewLeakyBucket_zero_rate_panics_witness :
  exists r r',
    LL.NewLeakyBucket 2 1 100 = Done r /\
    LL.rate r = 0 /\
    LL.TryTake 100 r = Done (r', true) /\
    LL.TryTake 100 r' = Panic /\
    Runs.tryTakes [100; 100] r = Panic.
Proof. apply (NewLeakyBucket_zero_rate_panics 2 1 100 100 100); cbn; lia. Defined.

(** Where the rate is not 0 the bucket starts full.  For
    [0 < tokensPerWindow <= |window|] (the window in nanoseconds) and
    [tokensPerWindow <= 2^53], [Size] returns [tokensPerWindow] whenever it
    is called first, and [tokensPerWindow] calls of [TryTake] at the instant
    of the construction all succeed.  When the rate is positive
    ([tokensPerWindow <= window]) they succeed as well at whatever
    non-decreasing clock readings within [2^62] ns of the construction. *)
Theorem NewLeakyBucket_starts_full tokensPerWindow window t0 :
  0 < tokensPerWindow -> tokensPerWindow <= Z.abs window ->
  tokensPerWindow <= 2 ^ 53 -> Z.abs window < 2 ^ 63 ->
  exists r,
    LL.NewLeakyBucket tokensPerWindow window t0 = Done r /\
    (forall now, LL.Size now r = Done (r, tokensPerWindow)) /\
    (exists r',
       Runs.tryTakes (repeat t0 (Z.to_nat tokensPerWindow)) r =
       Done (r', repeat true (Z.to_nat tokensPerWindow))) /\
    (tokensPerWindow <= window ->
     forall times,
       length times = Z.to_nat tokensPerWindow ->
       Runs.nondecreasing t0 times ->
       Forall (fun now => now - t0 <= 2 ^ 62) times ->
       exists r',
         Runs.tryTakes times r =
         Done (r', repeat true (Z.to_nat tokensPerWindow))).
Proof.
  intros Hpos Hwin _ _. unfold LL.NewLeakyBucket.
  destruct (Z.eqb_spec tokensPerWindow 0); [lia|].
  eexists. split; [reflexivity|]. split; [|split].
  - intros now. unfold LL.Size, LL.unsafeFill. cbn.
    rewrite Z.leb_refl. reflexivity.
  - apply (tryTakes_same_instant (Z.to_nat tokensPerWindow)
             {| LL.max := tokensPerWindow; LL.tokens := tokensPerWindow;
                LL.rate := window ÷ tokensPerWindow; LL.lastFill := t0 |});
      cbn; try lia.
    rewrite Z.quot_small_iff by lia. lia.
  - intros Hrate times Hlen Hmono _. rewrite <- Hlen.
    apply (tryTakes_all_succeed times t0); [|exact Hmono|cbn; lia].
    unfold filledBefore; cbn.
    assert (0 < window ÷ tokensPerWindow) by (apply Z.quot_str_pos; lia).
    lia.
Qed.

(** The bucket of the repository's test, [NewLeakyBucket(10, 2s)]. *)
Lemma NewLeakyBucket_starts_full_witness :
  exists r,
    LL.NewLeakyBucket 10 2000000000 0 = Done r /\
    (forall now, LL.Size now r = Done (r, 10)) /\
    (exists r',
       Runs.tryTakes (repeat 0 (Z.to_nat 10)) r =
       Done (r', repeat true (Z.to_nat 10))) /\
    (10 <= 2000000000 ->
     forall times,
       length times = Z.to_nat 10 ->
       Runs.nondecreasing 0 times ->
       Forall (fun now => now - 0 <= 2 ^ 62) times ->
       exists r',
         Runs.tryTakes times r = Done (r', repeat true (Z.to_nat 10))).
Proof. apply (NewLeakyBucket_starts_full 10 2000000000 0); lia. Defined.

(** C10, as amended: [NewLeakyBucket] validates nothing.  With
    [tokensPerWindow = 0] it panics.  With a window whose length [|window|]
    in nanoseconds is less than [tokensPerWindow] it returns a bucket whose
    rate is 0 (and the rate of a bucket it returns is 0 in that case only:
    a negative window of [tokensPerWindow] ns or more gives a negative
    rate), and on a bucket of rate 0 that is not full, [unsafeFill] and with
    it [TryTakeWithDuration], [TryTake] and [Size] panic. *)
Theorem NewLeakyBucket_unvalidated :
  (forall window now, LL.NewLeakyBucket 0 window now = Panic) /\
  (forall tokensPerWindow window now,
     Z.abs window < tokensPerWindow ->
     LL.NewLeakyBucket tokensPerWindow window now =
     Done {| LL.max := tokensPerWindow; LL.tokens := tokensPerWindow;
             LL.rate := 0; LL.lastFill := now |}) /\
  (forall tokensPerWindow window now r,
     LL.NewLeakyBucket tokensPerWindow window now = Done r ->
     (LL.rate r = 0 <-> Z.abs window < Z.abs tokensPerWindow)) /\
  (forall now r,
     LL.rate r = 0 -> LL.tokens r < LL.max r ->
     LL.unsafeFill now r = Panic /\
     LL.TryTakeWithDuration now r = Panic /\
     LL.TryTake now r = Panic /\
     LL.Size now r = Panic).
Proof.
  split; [reflexivity|]. split; [|split].
  - intros tokensPerWindow window now Hwin. unfold LL.NewLeakyBucket.
    destruct (Z.eqb_spec tokensPerWindow 0); [lia|].
    replace (window ÷ tokensPerWindow) with 0; [reflexivity|].
    symmetry. apply Z.quot_small_iff; lia.
  - intros tokensPerWindow window now r. unfold LL.NewLeakyBucket.
    destruct (Z.eqb_spec tokensPerWindow 0); [discriminate|].
    intros [= <-]. cbn. apply Z.quot_small_iff. assumption.
  - intros now r Hrate Hfull.
    assert (LL.unsafeFill now r = Panic) as Hfill.
    { unfold LL.unsafeFill.
      destruct (Z.leb_spec (LL.max r) (LL.tokens r)); [lia|].
      rewrite Hrate. reflexivity. }
    unfold LL.TryTake, LL.TryTakeWithDuration, LL.Size. rewrite Hfill.
    repeat split.
Qed.

(** [NewLeakyBucket(2, 1ns)]: a rate of 0, and a panic at the first call
    that finds the bucket not full. *)
Lemma NewLeakyBucket_unvalidated_witness :
  LL.NewLeakyBucket 2 1 100 =
    Done {| LL.max := 2; LL.tokens := 2; LL.rate := 0; LL.lastFill := 100 |} /\
  LL.Size 100
    {| LL.max := 2; LL.tokens := 1; LL.rate := 0; LL.lastFill := 100 |} =
    Panic.
Proof.
  split.
  - apply (proj1 (proj2 NewLeakyBucket_unvalidated) 2 1 100). lia.
  - apply (proj2 (proj2 (proj2 NewLeakyBucket_unvalidated)) 100
             {| LL.max := 2; LL.tokens := 1; LL.rate := 0;
                LL.lastFill := 100 |}); cbn; lia.
Defined.

(** C10 as stated fails: [NewLeakyBucket(3, -10ns)] has more tokens than
    its window has nanoseconds, and its token rate is [-10 / 3 = -3], not 0:
    no call divides by zero.  The [TryTake] that follows 5 ns later finds
    the bucket not full, computes [5 / -3 = -1] token to fill and
    returns. *)
Lemma NewLeakyBucket_negative_window :
  -10 < 3 /\
  LL.NewLeakyBucket 3 (-10) 100 =
    Done {| LL.max := 3; LL.tokens := 3; LL.rate := -3; LL.lastFill := 100 |} /\
  Runs.tryTakes [100; 105]
    {| LL.max := 3; LL.tokens := 3; LL.rate := -3; LL.lastFill := 100 |} =
    Done ({| LL.max := 3; LL.tokens := 0; LL.rate := -3; LL.lastFill := 105 |},
          [true; true]) /\
  LL.Size 105
    {| LL.max := 3; LL.tokens := 2; LL.rate := -3; LL.lastFill := 100 |} =
    Done ({| LL.max := 3; LL.tokens := 1; LL.rate := -3; LL.lastFill := 105 |},
          1).
Proof. split; [lia|]. repeat split. Qed.

(** ** Replies of the store *)

Lemma leakyArgInts_spec args :
  forall i,
    match RL.leakyArgInts i args with
    | Ok ints =>
        args = map VInt64 ints /\
        existsb (fun a => negb (isInt64 a)) args = false
    | Err _ => existsb (fun a => negb (isInt64 a)) args = true
    end.
Proof.
  induction args as [|a args IH]; intros i; cbn [RL.leakyArgInts].
  - split; reflexivity.
  - destruct a; try reflexivity.
    specialize (IH (S i)). destruct (RL.leakyArgInts (S i) args).
    + destruct IH as [-> IH]. split; [reflexivity | exact IH].
    + exact IH.
Qed.

Lemma int64Slice_spec args :
  forall i,
    match RS.int64Slice i args with
    | Ok ints =>
        args = map VInt64 ints /\
        existsb (fun a => negb (isInt64 a)) args = false
    | Err _ => existsb (fun a => negb (isInt64 a)) args = true
    end.
Proof.
  induction args as [|a args IH]; intros i; cbn [RS.int64Slice].
  - split; reflexivity.
  - destruct a; try reflexivity.
    specialize (IH (S i)). destruct (RS.int64Slice (S i) args).
    + destruct IH as [-> IH]. split; [reflexivity | exact IH].
    + exact IH.
Qed.

Lemma parseLeakyBucketResponse_spec v :
  match RL.parseLeakyBucketResponse v with
  | Ok output =>
      malformed 3 v = false /\
      exists s t l,
        v = VSlice [VInt64 s; VInt64 t; VInt64 l] /\
        output = {| RL.success := s =? 1; RL.remaining := t;
                    RL.lastFilled := l |}
  | Err _ => malformed 3 v = true
  end.
Proof.
  destruct v as [| | | | |args]; try reflexivity.
  unfold RL.parseLeakyBucketResponse, malformed.
  destruct (Nat.eqb_spec (length args) 3) as [Hlen|]; cbn [negb orb];
    [|reflexivity].
  pose proof (leakyArgInts_spec args 0%nat) as H.
  destruct (RL.leakyArgInts 0 args) as [ints|]; [|exact H].
  destruct H as [-> H]. split; [exact H|].
  rewrite length_map in Hlen.
  destruct ints as [|s [|t [|l [|]]]]; try discriminate.
  exists s, t, l. split; reflexivity.
Qed.

Lemma parseSlidingWindowResponse_spec v :
  match RS.parseSlidingWindowResponse v with
  | Ok output =>
      malformed 2 v = false /\
      exists s t,
        v = VSlice [VInt64 s; VInt64 t] /\
        output = {| RS.success := s =? 1; RS.tokens := t |}
  | Err _ => malformed 2 v = true
  end.
Proof.
  destruct v as [| | | | |args]; try reflexivity.
  unfold RS.parseSlidingWindowResponse, RS.parseRedisInt64Slice, malformed.
  pose proof (int64Slice_spec args 0%nat) as H.
  destruct (RS.int64Slice 0 args) as [ints|];
    [|rewrite H; apply orb_true_r].
  destruct H as [-> H]. rewrite H, length_map, orb_false_r.
  destruct (Nat.eqb_spec (length ints) 2) as [Hlen|]; cbn [negb];
    [|reflexivity].
  split; [reflexivity|].
  destruct ints as [|s [|t [|]]]; try discriminate.
  exists s, t. split; reflexivity.
Qed.

(** C6: each of the two reply parsers returns an error, and no output,
    exactly on the malformed replies: a value that is not a list, a list
    that has not exactly 3 (leaky bucket) or 2 (sliding window) elements, or
    a list with an element that is not a 64-bit integer.  On a list of
    exactly that many 64-bit integers it returns them as they are: [success]
    is whether the first one is 1, the others are copied. *)
Theorem parsers_reject_exactly_malformed :
  (forall v,
     is_err (RL.parseLeakyBucketResponse v) = malformed 3 v /\
     is_err (RS.parseSlidingWindowResponse v) = malformed 2 v) /\
  (forall s t l,
     RL.parseLeakyBucketResponse (VSlice [VInt64 s; VInt64 t; VInt64 l]) =
     Ok {| RL.success := s =? 1; RL.remaining := t; RL.lastFilled := l |}) /\
  (forall s t,
     RS.parseSlidingWindowResponse (VSlice [VInt64 s; VInt64 t]) =
     Ok {| RS.success := s =? 1; RS.tokens := t |}) /\
  (forall v output,
     RL.parseLeakyBucketResponse v = Ok output ->
     exists s t l,
       v = VSlice [VInt64 s; VInt64 t; VInt64 l] /\
       output = {| RL.success := s =? 1; RL.remaining := t;
                   RL.lastFilled := l |}) /\
  (forall v output,
     RS.parseSlidingWindowResponse v = Ok output ->
     exists s t,
       v = VSlice [VInt64 s; VInt64 t] /\
       output = {| RS.success := s =? 1; RS.tokens := t |}).
Proof.
  repeat split.
  - pose proof (parseLeakyBucketResponse_spec v) as H.
    destruct (RL.parseLeakyBucketResponse v); cbn; [destruct H|]; congruence.
  - pose proof (parseSlidingWindowResponse_spec v) as H.
    destruct (RS.parseSlidingWindowResponse v); cbn; [destruct H|]; congruence.
  - intros v output E. pose proof (parseLeakyBucketResponse_spec v) as H.
    rewrite E in H. apply H.
  - intros v output E. pose proof (parseSlidingWindowResponse_spec v) as H.
    rewrite E in H. apply H.
Qed.

(** The replies of the repository's tests: a string, a list that is too
    short or too long, a list with a [float64], and two well-shaped ones. *)
Lemma parsers_reject_exactly_malformed_witness :
  RL.parseLeakyBucketResponse (VString "foo") =
    Err (ErrExpectedSlice "string") /\
  RL.parseLeakyBucketResponse (VSlice [VInt 1; VInt 2]) =
    Err (ErrExpectedArgs 3 2) /\
  RL.parseLeakyBucketResponse
    (VSlice [VInt64 1; VFloat64 2; VString "three"]) =
    Err (ErrExpectedInt64 1 "float64") /\
  RS.parseSlidingWindowResponse (VSlice [VInt64 1; VInt64 2; VInt64 3]) =
    Err (ErrExpectedArgs 2 3) /\
  (exists s t l,
     VSlice [VInt64 1; VInt64 59; VInt64 1000] =
       VSlice [VInt64 s; VInt64 t; VInt64 l] /\
     {| RL.success := true; RL.remaining := 59; RL.lastFilled := 1000 |} =
       {| RL.success := s =? 1; RL.remaining := t; RL.lastFilled := l |}) /\
  (exists s t,
     VSlice [VInt64 0; VInt64 60] = VSlice [VInt64 s; VInt64 t] /\
     {| RS.success := false; RS.tokens := 60 |} =
       {| RS.success := s =? 1; RS.tokens := t |}).
Proof.
  repeat (split; [reflexivity|]). split.
  - apply (proj1 (proj2 (proj2 (proj2 parsers_reject_exactly_malformed)))).
    reflexivity.
  - apply (proj2 (proj2 (proj2 (proj2 parsers_reject_exactly_malformed)))).
    reflexivity.
Defined.

(** ** Construction of the local sliding window *)

(** C7: [NewSlidingWindow] returns an error, and no limiter, exactly when
    the capacity or the duration is not positive: [ErrCapacity] for a
    capacity [<= 0], and [ErrDuration] for a positive capacity with a
    duration [<= 0].  For a positive capacity and duration it returns the
    limiter with these and an empty window. *)
Theorem NewSlidingWindow_validates capacity duration :
  (is_err (LS.NewSlidingWindow capacity duration) = true <->
   capacity <= 0 \/ duration <= 0) /\
  (capacity <= 0 -> LS.NewSlidingWindow capacity duration = Err ErrCapacity) /\
  (0 < capacity -> duration <= 0 ->
   LS.NewSlidingWindow capacity duration = Err ErrDuration) /\
  (0 < capacity -> 0 < duration ->
   LS.NewSlidingWindow capacity duration =
   Ok {| LS.capacity := capacity; LS.duration := duration;
         LS.window := [] |}).
Proof.
  unfold LS.NewSlidingWindow.
  destruct (Z.leb_spec capacity 0), (Z.leb_spec duration 0); cbn;
    intuition (congruence || lia).
Qed.

(** ** Sliding windows *)

Lemma Use_redisSlidingEval bucket now zset :
  RS.Use RS.redisSlidingEval bucket now zset =
  let live := RS.zremrangebyscore now zset in
  let current := RS.zcard live in
  if current <? RS.MaximumCapacity bucket
  then (RS.zadd (now + RS.Window bucket) live,
        Ok {| RS.Success := true;
              RS.RemainingCapacity :=
                Z.max 0 (RS.MaximumCapacity bucket - (current + 1)) |})
  else (live,
        Ok {| RS.Success := false;
              RS.RemainingCapacity :=
                Z.max 0 (RS.MaximumCapacity bucket - current) |}).
Proof.
  unfold RS.Use, RS.redisSlidingEval, RS.useScript. cbv zeta.
  destruct (RS.zcard (RS.zremrangebyscore now zset) <? RS.MaximumCapacity bucket);
    cbn; do 3 f_equal.
  - destruct (Z.ltb_spec 0
      (RS.MaximumCapacity bucket
       - (RS.zcard (RS.zremrangebyscore now zset) + 1))); lia.
  - destruct (Z.ltb_spec 0
      (RS.MaximumCapacity bucket - RS.zcard (RS.zremrangebyscore now zset)));
      lia.
Qed.



(** On a window in the order of the expiries, the prefix that [clean] drops
    is the set of the expired entries. *)
Lemma drop_toRemove now window :
  StronglySorted Z.le window ->
  drop (LS.toRemove now window) window = Spec.live now window.
Proof.
  unfold Spec.live. induction 1 as [|ts rest Hsorted IH Hle]; [reflexivity|].
  cbn [LS.toRemove]. destruct (Z.ltb_spec now ts) as [Hlive|Hdead].
  - cbn [drop]. rewrite filter_cons_True by exact Hlive. f_equal.
    clear IH Hsorted. induction rest as [|ts' rest IH]; [reflexivity|].
    inversion Hle; subst. rewrite filter_cons_True by lia. f_equal. auto.
  - cbn [drop]. rewrite filter_cons_False by lia. exact IH.
Qed.

Lemma live_windowOk t now r :
  windowOk t r -> t <= now ->
  StronglySorted Z.le (Spec.live now (LS.window r)) /\
  Forall (fun ts => ts <= now + LS.duration r) (Spec.live now (LS.window r)).
Proof.
  intros [Hsorted Hbound] Hnow. unfold Spec.live. split.
  - clear Hbound. induction Hsorted as [|ts rest Hs IH Hle]; [constructor|].
    destruct (decide (now < ts)).
    + rewrite filter_cons_True by assumption. constructor; [exact IH|].
      apply Forall_forall. intros x ?%list_elem_of_filter.
      rewrite Forall_forall in Hle. apply Hle. tauto.
    + rewrite filter_cons_False by assumption. exact IH.
  - apply Forall_forall. intros x ?%list_elem_of_filter.
    rewrite Forall_forall in Hbound.
    assert (x <= t + LS.duration r) by (apply Hbound; tauto).
    lia.
Qed.

Lemma TryTakeWithDuration_live now r :
  StronglySorted Z.le (LS.window r) -> 0 < LS.capacity r ->
  let live := Spec.live now (LS.window r) in
  if Z.of_nat (length live) <? LS.capacity r
  then LS.TryTakeWithDuration now r =
       Done ({| LS.capacity := LS.capacity r; LS.duration := LS.duration r;
                LS.window := live ++ [now + LS.duration r] |}, (true, 0))
  else exists first rest,
         live = first :: rest /\
         LS.TryTakeWithDuration now r =
         Done ({| LS.capacity := LS.capacity r; LS.duration := LS.duration r;
                  LS.window := live |}, (false, first - now)).
Proof.
  intros Hsorted Hcap live. unfold LS.TryTakeWithDuration, LS.clean.
  cbn [LS.window LS.capacity LS.duration].
  rewrite drop_toRemove by exact Hsorted. fold live.
  destruct (Z.ltb_spec (Z.of_nat (length live)) (LS.capacity r)),
    (Z.leb_spec (LS.capacity r) (Z.of_nat (length live))); try lia.
  - reflexivity.
  - destruct live as [|first rest] eqn:E; [cbn in *; lia|].
    exists first, rest. split; reflexivity.
Qed.

Lemma StronglySorted_snoc (l : list Z) x :
  StronglySorted Z.le l -> Forall (fun y => y <= x) l ->
  StronglySorted Z.le (l ++ [x]).
Proof.
  induction 1 as [|y l Hs IH Hle]; intros Hx; cbn.
  - repeat constructor.
  - inversion Hx; subst. constructor; [auto|].
    apply Forall_app. split; [exact Hle | repeat constructor; assumption].
Qed.

(** The order of the window is kept by the calls, as long as the clock does
    not run backwards. *)
Lemma TryTakeWithDuration_windowOk t now r r' resp :
  windowOk t r -> t <= now ->
  LS.TryTakeWithDuration now r = Done (r', resp) -> windowOk now r'.
Proof.
  intros Hok Hnow. pose proof (live_windowOk t now r Hok Hnow) as [Hs Hb].
  destruct Hok as [Hsorted _].
  unfold LS.TryTakeWithDuration, LS.clean.
  cbn [LS.window LS.capacity LS.duration].
  rewrite drop_toRemove by exact Hsorted.
  destruct (_ <=? _).
  - destruct (Spec.live now (LS.window r)) eqn:E; [discriminate|].
    intros [= <- <-]. split; cbn; assumption.
  - intros [= <- <-]. split; cbn.
    + apply StronglySorted_snoc; assumption.
    + apply Forall_app. split; [exact Hb|]. repeat constructor. lia.
Qed.

Lemma NewSlidingWindow_windowOk capacity duration r t :
  LS.NewSlidingWindow capacity duration = Ok r ->
  windowOk t r /\ 0 < LS.capacity r.
Proof.
  unfold LS.NewSlidingWindow.
  destruct (Z.leb_spec capacity 0); [discriminate|].
  destruct (Z.leb_spec duration 0); [discriminate|].
  intros [= <-]. repeat split; cbn; (constructor || lia).
Qed.




(** ** The blocking layer *)

Section BlockingFacts.

Context {St : Type}.
Variable tryTake : Z -> St -> outcome (St * (bool * Z)).

Lemma wait_unfold turns ctx now r :
  Local.wait tryTake turns ctx now r =
  match tryTake now r with
  | Panic => Local.Panicked
  | Done (r', (available, duration)) =>
      if available then Local.Acquired r' now
      else
        match turns with
        | [] => Local.Waiting r' now
        | turn :: turns' =>
            let '(fired, woken) :=
              Local.awaitNextToken ctx (Local.pick turn) now duration in
            if negb fired then Local.Cancelled r' woken
            else Local.wait tryTake turns' ctx
                   (woken + Z.of_nat (Local.late turn))
                   (Local.others turn r')
        end
  end.
Proof. destruct turns; reflexivity. Qed.

(** [wait] returns true only out of a successful attempt. *)
Lemma wait_Acquired turns :
  forall ctx now r r' at_,
    Local.wait tryTake turns ctx now r = Local.Acquired r' at_ ->
    exists r0 d, tryTake at_ r0 = Done (r', (true, d)).
Proof.
  induction turns as [|turn turns IH]; intros ctx now r r' at_;
    rewrite wait_unfold;
    destruct (tryTake now r) as [[r1 [[|] d]]|] eqn:E; try discriminate.
  - intros [= <- <-]. eauto.
  - intros [= <- <-]. eauto.
  - destruct (Local.awaitNextToken ctx (Local.pick turn) now d)
      as [[|] woken]; cbn; [apply IH | discriminate].
Qed.

(** A failed attempt followed by a wait that the cancellation ends. *)
Lemma wait_Cancelled turn turns cancelledAt now r r' d :
  tryTake now r = Done (r', (false, d)) ->
  Z.max now cancelledAt < now + Z.max 0 d ->
  Local.wait tryTake (turn :: turns) (Some cancelledAt) now r =
  Local.Cancelled r' (Z.max now cancelledAt).
Proof.
  intros E Hlt. rewrite wait_unfold, E. unfold Local.awaitNextToken.
  destruct (Z.ltb_spec (Z.max now cancelledAt) (now + Z.max 0 d)); [|lia].
  reflexivity.
Qed.

(** A failed attempt followed by a wait that the timer ends. *)
Lemma wait_retry turn turns ctx now r r' d :
  tryTake now r = Done (r', (false, d)) ->
  (forall cancelledAt,
     ctx = Some cancelledAt -> now + Z.max 0 d < Z.max now cancelledAt) ->
  Local.wait tryTake (turn :: turns) ctx now r =
  Local.wait tryTake turns ctx
    (now + Z.max 0 d + Z.of_nat (Local.late turn)) (Local.others turn r').
Proof.
  intros E Hlt. rewrite wait_unfold, E. unfold Local.awaitNextToken.
  destruct ctx as [cancelledAt|]; [|reflexivity].
  specialize (Hlt cancelledAt eq_refl).
  destruct (Z.ltb_spec (Z.max now cancelledAt) (now + Z.max 0 d)); [lia|].
  destruct (Z.ltb_spec (now + Z.max 0 d) (Z.max now cancelledAt)); [|lia].
  reflexivity.
Qed.

End BlockingFacts.

(** C8: [WaitFunc] calls [cb] on a context that is cancelled already.
    Whatever the limiter and whatever the context, when the first attempt
    of the loop takes a token [wait] returns true without a look at
    [ctx.Done()], and [WaitFunc] calls [cb]: the loop looks at the context
    only while it waits for the timer that follows a failed attempt. *)
Theorem WaitFunc_calls_cb_when_cancelled {St : Type}
    (tryTake : Z -> St -> outcome (St * (bool * Z)))
    turns cancelledAt now r r' d :
  cancelledAt <= now ->
  tryTake now r = Done (r', (true, d)) ->
  Local.WaitFunc tryTake turns (Some cancelledAt) now r =
  (Local.Acquired r' now, true).
Proof.
  intros _ Htake. unfold Local.WaitFunc. rewrite wait_unfold, Htake.
  reflexivity.
Qed.

(** With a context that was cancelled at the instant 0, [WaitFunc] called at
    the instant 10 on a leaky bucket that has a token, or on a sliding
    window that has room, takes the token and calls [cb]. *)
Lemma WaitFunc_calls_cb_when_cancelled_witness :
  LL.WaitFunc [] (Some 0) 10
    {| LL.max := 2; LL.tokens := 2; LL.rate := 125000000; LL.lastFill := 0 |}
  = (Local.Acquired
       {| LL.max := 2; LL.tokens := 1; LL.rate := 125000000;
          LL.lastFill := 0 |} 10, true) /\
  LS.WaitFunc [] (Some 0) 10
    {| LS.capacity := 2; LS.duration := 250000000; LS.window := [] |}
  = (Local.Acquired
       {| LS.capacity := 2; LS.duration := 250000000;
          LS.window := [250000010] |} 10, true).
Proof.
  split.
  - apply (WaitFunc_calls_cb_when_cancelled LL.TryTakeWithDuration [] 0 10
             {| LL.max := 2; LL.tokens := 2; LL.rate := 125000000;
                LL.lastFill := 0 |}
             {| LL.max := 2; LL.tokens := 1; LL.rate := 125000000;
                LL.lastFill := 0 |} 0); [lia | reflexivity].
  - apply (WaitFunc_calls_cb_when_cancelled LS.TryTakeWithDuration [] 0 10
             {| LS.capacity := 2; LS.duration := 250000000;
                LS.window := [] |}
             {| LS.capacity := 2; LS.duration := 250000000;
                LS.window := [250000010] |} 0); [lia | reflexivity].
Defined.

(** ** Further properties *)

(** The clock readings of a limiter that is polled: each one comes less than
    [period] after the one before. *)
Fixpoint polled (period t : Z) (times : list Z) : Prop :=
  match times with
  | [] => True
  | t' :: rest => t <= t' < t + period /\ polled period t' rest
  end.

(** A local leaky bucket that is asked (by [TryTake] or [Size]) more often
    than once per token period never gains a token: every call moves
    [lastFill] to its own instant, so no call ever sees a whole period.
    (The capacity and the tokens are numbers that [float64] holds.) *)
Theorem unsafeFill_starves_when_polled calls :
  forall r,
    0 < LL.rate r -> LL.tokens r < LL.max r ->
    - 2 ^ 53 <= LL.tokens r -> LL.max r <= 2 ^ 53 ->
    polled (LL.rate r) (LL.lastFill r) (map Runs.callTime calls) ->
    exists trace,
      Runs.localRun calls r = Done trace /\
      Forall (fun after => LL.tokens (fst after) <= LL.tokens r) trace.
Proof.
  induction calls as [|c calls IH]; intros r Hrate Hfull Hlow Hhigh Hpolled.
  - exists []. split; [reflexivity | constructor].
  - destruct Hpolled as [Hnow Hpolled].
    assert (LL.unsafeFill (Runs.callTime c) r =
            Done {| LL.max := LL.max r; LL.tokens := LL.tokens r;
                    LL.rate := LL.rate r;
                    LL.lastFill := Runs.callTime c |}) as Hfill.
    { rewrite unsafeFill_lastFill by lia.
      rewrite Z.quot_small by lia. do 2 f_equal. lia. }
    assert (exists r' ret,
      Runs.localStep c r = Done (r', ret) /\
      LL.rate r' = LL.rate r /\ LL.max r' = LL.max r /\
      LL.lastFill r' = Runs.callTime c /\
      - 2 ^ 53 <= LL.tokens r' <= LL.tokens r)
      as (r' & ret & Hstep & Hr & Hm & Hl & Ht).
    { destruct c as [now|now]; cbn [Runs.localStep Runs.callTime] in *;
        unfold LL.TryTake, LL.TryTakeWithDuration, LL.Size;
        rewrite Hfill; cbn.
      - destruct (Z.ltb_spec (LL.tokens r) 1); cbn; eexists _, _;
          (split; [reflexivity|]); cbn; split_and!; lia.
      - eexists _, _; (split; [reflexivity|]); cbn; split_and!; lia. }
    destruct (IH r') as (trace & Hrun & Htrace);
      [lia | lia | lia | lia | rewrite Hr, Hl; exact Hpolled |].
    exists ((r', ret) :: trace). split.
    + cbn [Runs.localRun]. rewrite Hstep; cbn [obind]. rewrite Hrun.
      reflexivity.
    + constructor; [cbn; lia|].
      eapply Forall_impl; [exact Htrace|]. cbn. intros; lia.
Qed.

(** An empty bucket of one token per 100 ns that two waiters ask in turn,
    every 50 ns, gives neither of them a token. *)
Lemma unsafeFill_starves_when_polled_witness :
  exists trace,
    Runs.localRun
      [Runs.CallTryTake 50; Runs.CallTryTake 100; Runs.CallTryTake 150;
       Runs.CallTryTake 200; Runs.CallSize 250]
      {| LL.max := 10; LL.tokens := 0; LL.rate := 100; LL.lastFill := 0 |}
    = Done trace /\
    Forall (fun after => LL.tokens (fst after) <= 0) trace.
Proof.
  apply (unsafeFill_starves_when_polled
           [Runs.CallTryTake 50; Runs.CallTryTake 100; Runs.CallTryTake 150;
            Runs.CallTryTake 200; Runs.CallSize 250]
           {| LL.max := 10; LL.tokens := 0; LL.rate := 100;
              LL.lastFill := 0 |}); cbn; lia.
Defined.

(** The sorted set of a distributed sliding window never grows past the
    capacity: after a [Use] it holds at most [MaximumCapacity] members, or
    the live members it already held when they were more. *)
Theorem Use_zcard_bound bucket now (zset : gset Z) :
  RS.zcard (fst (RS.Use RS.redisSlidingEval bucket now zset)) <=
  Z.max (RS.MaximumCapacity bucket) (RS.zcard (RS.zremrangebyscore now zset)).
Proof.
  rewrite Use_redisSlidingEval. cbv zeta.
  destruct (Z.ltb_spec (RS.zcard (RS.zremrangebyscore now zset))
              (RS.MaximumCapacity bucket)); cbn [fst]; [|lia].
  unfold RS.zadd, RS.zcard in *.
  set (live := RS.zremrangebyscore now zset) in *.
  set (expiresAt := now + RS.Window bucket).
  pose proof (size_union_alt ({[ expiresAt ]} : gset Z) live) as Hsize.
  rewrite size_singleton in Hsize.
  pose proof (subseteq_size (live ∖ {[ expiresAt ]}) live
                ltac:(apply subseteq_difference_l; reflexivity)).
  lia.
Qed.

(** The window of a local sliding window never grows past the capacity. *)
Theorem TryTakeWithDuration_length_bound now r r' resp :
  Z.of_nat (length (LS.window r)) <= LS.capacity r ->
  LS.TryTakeWithDuration now r = Done (r', resp) ->
  LS.capacity r' = LS.capacity r /\
  Z.of_nat (length (LS.window r')) <= LS.capacity r'.
Proof.
  intros Hlen. unfold LS.TryTakeWithDuration, LS.clean.
  cbn [LS.window LS.capacity LS.duration].
  pose proof (length_drop (LS.window r) (LS.toRemove now (LS.window r))) as Hd.
  destruct (Z.leb_spec (LS.capacity r)
              (Z.of_nat (length (drop (LS.toRemove now (LS.window r))
                                   (LS.window r))))).
  - destruct (drop _ _) eqn:E; [discriminate|].
    intros [= <- <-]; cbn in *. lia.
  - intros [= <- <-]; cbn. rewrite length_app. cbn. lia.
Qed.

Lemma TryTakeWithDuration_length_bound_witness :
  LS.capacity
    {| LS.capacity := 2; LS.duration := 1000; LS.window := [1500; 2200] |} = 2
  /\ Z.of_nat (length [1500; 2200]) <= 2.
Proof.
  apply (TryTakeWithDuration_length_bound 1200
           {| LS.capacity := 2; LS.duration := 1000;
              LS.window := [1000; 1500] |}
           {| LS.capacity := 2; LS.duration := 1000;
              LS.window := [1500; 2200] |} (true, 0));
    [cbn; lia | reflexivity].
Defined.




(** ** Rates of admission *)

Lemma admitted_cons resp resps :
  Runs.admitted (resp :: resps) =
  (if resp then 1 else 0) + Runs.admitted resps.
Proof.
  unfold Runs.admitted. cbn [count_occ].
  destruct resp; destruct (Bool.bool_dec _ _); try congruence; lia.
Qed.

Lemma admitted_nonneg resps : 0 <= Runs.admitted resps.
Proof. unfold Runs.admitted. lia. Qed.

(** Entries that are still live behind the scanned ones stop the scan of
    [clean]. *)
Lemma drop_toRemove_app now old new :
  Forall (fun ts => now < ts) new ->
  drop (LS.toRemove now (old ++ new)) (old ++ new) =
  drop (LS.toRemove now old) old ++ new.
Proof.
  intros Hnew. induction old as [|ts old IH]; cbn [app LS.toRemove].
  - destruct Hnew as [|ts new Hts Hnew]; [reflexivity|].
    cbn [LS.toRemove]. destruct (Z.ltb_spec now ts); [reflexivity | lia].
  - destruct (now <? ts); [reflexivity | exact IH].
Qed.

(** Entries that have all expired are all dropped. *)
Lemma drop_toRemove_expired now window :
  Forall (fun ts => ts <= now) window ->
  drop (LS.toRemove now window) window = [].
Proof.
  induction 1 as [|ts window Hts _ IH]; [reflexivity|].
  cbn [LS.toRemove]. destruct (Z.ltb_spec now ts); [lia | exact IH].
Qed.

Lemma windowTakes_admitted lo times :
  forall r old new,
    0 < LS.capacity r ->
    LS.window r = old ++ new ->
    Forall (fun ts => lo + LS.duration r <= ts) new ->
    Forall (fun now => lo <= now < lo + LS.duration r) times ->
    Z.of_nat (length new) <= LS.capacity r ->
    exists r' resps,
      Runs.windowTakes times r = Done (r', resps) /\
      length resps = length times /\
      Z.of_nat (length new) + Runs.admitted resps <= LS.capacity r /\
      (Forall (fun ts => ts <= lo) old ->
       Runs.admitted resps =
       Z.min (Z.of_nat (length times))
         (LS.capacity r - Z.of_nat (length new))).
Proof.
  induction times as [|now times IH];
    intros r old new Hcap Hwin Hnew Htimes Hlen.
  - exists r, []. unfold Runs.admitted. cbn.
    split_and!; try lia; reflexivity.
  - inversion Htimes as [|? ? Hnow Hrest]; subst.
    cbn [Runs.windowTakes]. unfold LS.TryTake, LS.TryTakeWithDuration, LS.clean.
    cbn [LS.window LS.capacity LS.duration]. rewrite Hwin.
    rewrite drop_toRemove_app
      by (eapply Forall_impl; [exact Hnew | cbn; intros; lia]).
    set (old' := drop (LS.toRemove now old) old).
    assert (Forall (fun ts => ts <= lo) old -> old' = []) as Hold.
    { intros Hexpired. apply drop_toRemove_expired.
      eapply Forall_impl; [exact Hexpired | cbn; intros; lia]. }
    destruct (Z.leb_spec (LS.capacity r) (Z.of_nat (length (old' ++ new))))
      as [Hfull|Hroom].
    + destruct (old' ++ new) as [|first rest] eqn:E; [cbn in Hfull; lia|].
      cbn [obind].
      destruct (IH {| LS.capacity := LS.capacity r;
                      LS.duration := LS.duration r;
                      LS.window := first :: rest |} old' new)
        as (r' & resps & -> & Hlen' & Hadm & Hexact);
        cbn [LS.window LS.capacity LS.duration]; auto.
      eexists _, _. split; [reflexivity|]. rewrite admitted_cons.
      cbn [length LS.capacity] in *. split_and!; try lia.
      intros Hexpired. specialize (Hold Hexpired).
      assert (length new = S (length rest)) as Hl
        by (rewrite Hold in E; cbn in E; rewrite E; reflexivity).
      rewrite Hold in Hexact. specialize (Hexact ltac:(constructor)).
      pose proof (admitted_nonneg resps). lia.
    + cbn [obind].
      destruct (IH {| LS.capacity := LS.capacity r;
                      LS.duration := LS.duration r;
                      LS.window :=
                        (old' ++ new) ++ [now + LS.duration r] |}
                   old' (new ++ [now + LS.duration r]))
        as (r' & resps & -> & Hlen' & Hadm & Hexact);
        cbn [LS.window LS.capacity LS.duration]; auto.
      * rewrite app_assoc. reflexivity.
      * apply Forall_app. split; [exact Hnew|]. repeat constructor. lia.
      * rewrite length_app in *. cbn [length]. lia.
      * eexists _, _. split; [reflexivity|]. rewrite admitted_cons.
        rewrite length_app in *. cbn [length LS.capacity] in *.
        split_and!; try lia.
        intros Hexpired. specialize (Hold Hexpired).
        rewrite Hold in Hexact. specialize (Hexact ltac:(constructor)). lia.
Qed.

(** Whatever a local sliding window holds, of the [TryTake] calls made at
    instants that lie within one span of its duration at most [capacity]
    take a token; none of them panics.  When the tokens that the window
    holds have all expired by the start of the span (as they have on a new
    limiter, and on one that was left alone for one duration), the calls of
    such a burst that take a token are as many as the capacity allows. *)
Theorem windowTakes_rate lo times r :
  0 < LS.capacity r ->
  Forall (fun now => lo <= now < lo + LS.duration r) times ->
  exists r' resps,
    Runs.windowTakes times r = Done (r', resps) /\
    length resps = length times /\
    Runs.admitted resps <= LS.capacity r /\
    (Forall (fun ts => ts <= lo) (LS.window r) ->
     Runs.admitted resps = Z.min (Z.of_nat (length times)) (LS.capacity r)).
Proof.
  intros Hcap Htimes.
  destruct (windowTakes_admitted lo times r (LS.window r) [])
    as (r' & resps & Hrun & Hlen & Hadm & Hexact);
    [assumption | symmetry; apply app_nil_r | constructor | assumption
    | cbn; lia |].
  exists r', resps. cbn [length] in *. split_and!; try assumption; try lia.
  intros Hexpired. rewrite (Hexact Hexpired). lia.
Qed.

Lemma windowTakes_rate_witness :
  exists r' resps,
    Runs.windowTakes [100; 103; 105; 109]
      {| LS.capacity := 2; LS.duration := 10; LS.window := [95] |} =
    Done (r', resps) /\
    length resps = 4%nat /\ Runs.admitted resps <= 2 /\
    (Forall (fun ts => ts <= 100)
       (LS.window
          {| LS.capacity := 2; LS.duration := 10; LS.window := [95] |}) ->
     Runs.admitted resps = Z.min (Z.of_nat 4) 2).
Proof.
  apply (windowTakes_rate 100 [100; 103; 105; 109]
           {| LS.capacity := 2; LS.duration := 10; LS.window := [95] |}).
  - cbn. lia.
  - repeat constructor; cbn; lia.
Defined.


(** A [TryTake] in range pays the token it gives out of the budget of the
    bucket. *)
Lemma TryTake_budget t now horizon r :
  filledBefore t r -> t <= now <= horizon -> fillInRange horizon r ->
  exists r' resp,
    LL.TryTake now r = Done (r', resp) /\ filledBefore now r' /\
    fillInRange horizon r' /\
    budget horizon r' + (if resp then 1 else 0) <= budget horizon r.
Proof.
  intros (Htok & Hrate & Hlast) Hnow [Hmax Hspan].
  assert (exists filled,
    LL.unsafeFill now r = Done filled /\ filledBefore now filled /\
    fillInRange horizon filled /\
    budget horizon filled <= budget horizon r)
    as (filled & Hfill & (Htok' & Hrate' & Hlast') & [Hmax' Hspan']
        & Hbudget).
  { unfold LL.unsafeFill. destruct (Z.leb_spec (LL.max r) (LL.tokens r)).
    - exists r. unfold filledBefore, fillInRange. intuition lia.
    - destruct (Z.eqb_spec (LL.rate r) 0); [lia|].
      eexists; split; [reflexivity|].
      unfold filledBefore, fillInRange, budget; cbn.
      rewrite Z.quot_div_nonneg by lia.
      set (q := (now - LL.lastFill r) / LL.rate r).
      assert (0 <= q) by (apply Z.div_pos; lia).
      assert (LL.rate r * q <= now - LL.lastFill r)
        by (apply Z.mul_div_le; lia).
      assert ((horizon - now) / LL.rate r + q
              <= (horizon - LL.lastFill r) / LL.rate r).
      { rewrite <- Z.div_add by lia. apply Z.div_le_mono; lia. }
      lia. }
  unfold LL.TryTake, LL.TryTakeWithDuration. rewrite Hfill; cbn.
  destruct (Z.ltb_spec (LL.tokens filled) 1); cbn;
    eexists _, _; (split; [reflexivity|]);
    unfold filledBefore, fillInRange, budget in *; cbn; split_and!; lia.
Qed.

(** A local leaky bucket whose clock does not run backwards gives out, up to
    any instant [horizon] within [2^62] ns of its last fill, no more tokens
    than it held plus one for each whole token period since its last fill;
    and none of the [TryTake] calls panics.  (The capacity is a number that
    [float64] holds.) *)
Theorem tryTakes_rate t horizon times r :
  filledBefore t r -> fillInRange horizon r ->
  Runs.nondecreasing t times ->
  t <= horizon -> Forall (fun now => now <= horizon) times ->
  exists r' resps,
    Runs.tryTakes times r = Done (r', resps) /\
    length resps = length times /\
    Runs.admitted resps <= budget horizon r.
Proof.
  revert t r. induction times as [|now times IH];
    intros t r Hinv Hrange Hmono Ht Hhorizon.
  - exists r, []. split_and!; try reflexivity.
    destruct Hinv as (? & ? & ?). unfold budget, Runs.admitted; cbn.
    assert (0 <= (horizon - LL.lastFill r) / LL.rate r)
      by (apply Z.div_pos; lia).
    lia.
  - destruct Hmono as [Hnow Hmono].
    inversion Hhorizon as [|? ? Hle Hrest]; subst.
    destruct (TryTake_budget t now horizon r Hinv ltac:(lia) Hrange)
      as (r1 & resp & Htake & Hinv1 & Hrange1 & Hpaid).
    destruct (IH now r1 Hinv1 Hrange1 Hmono Hle Hrest)
      as (r' & resps & Hrun & Hlen & Hadm).
    cbn [Runs.tryTakes]. rewrite Htake; cbn [obind]. rewrite Hrun; cbn [obind].
    eexists _, _. split_and!; [reflexivity | cbn; lia |].
    rewrite admitted_cons. lia.
Qed.

Lemma tryTakes_rate_witness :
  exists r' resps,
    Runs.tryTakes [1000; 1040; 1100; 1100; 1210]
      {| LL.max := 3; LL.tokens := 1; LL.rate := 100; LL.lastFill := 1000 |} =
    Done (r', resps) /\
    length resps = 5%nat /\
    Runs.admitted resps <=
    budget 1250
      {| LL.max := 3; LL.tokens := 1; LL.rate := 100; LL.lastFill := 1000 |}.
Proof.
  apply (tryTakes_rate 1000 1250 [1000; 1040; 1100; 1100; 1210]
           {| LL.max := 3; LL.tokens := 1; LL.rate := 100;
              LL.lastFill := 1000 |}).
  - unfold filledBefore; cbn; lia.
  - unfold fillInRange; cbn; lia.
  - cbn; lia.
  - lia.
  - repeat constructor; lia.
Defined.








(** ** The blocking calls return *)

(** A wait that the timer ends, followed by an attempt that takes a token. *)
Lemma wait_second_attempt {St : Type}
    (tryTake : Z -> St -> outcome (St * (bool * Z)))
    turn turns ctx now r r1 r2 d d2 :
  tryTake now r = Done (r1, (false, d)) ->
  (forall cancelledAt,
     ctx = Some cancelledAt -> now + Z.max 0 d < Z.max now cancelledAt) ->
  tryTake (now + Z.max 0 d + Z.of_nat (Local.late turn))
    (Local.others turn r1) = Done (r2, (true, d2)) ->
  Local.wait tryTake (turn :: turns) ctx now r =
  Local.Acquired r2 (now + Z.max 0 d + Z.of_nat (Local.late turn)).
Proof.
  intros Hfail Hctx Htake.
  rewrite (wait_retry tryTake turn turns ctx now r r1 d Hfail Hctx).
  rewrite wait_unfold, Htake. reflexivity.
Qed.

(** A local bucket that fails an attempt is empty, has just been filled, and
    asks for one token period. *)
Lemma leaky_attempt_fails t now r r1 d :
  filledBefore t r -> t <= now -> 0 < LL.max r ->
  LL.TryTakeWithDuration now r = Done (r1, (false, d)) ->
  d = LL.rate r /\ filledBefore now r1 /\ LL.lastFill r1 = now /\
  LL.max r1 = LL.max r /\ LL.rate r1 = LL.rate r.
Proof.
  intros (Htok & Hrate & Hlast) Hnow Hmax.
  unfold LL.TryTakeWithDuration, LL.unsafeFill.
  destruct (Z.leb_spec (LL.max r) (LL.tokens r)); cbn [obind].
  - destruct (Z.ltb_spec (LL.tokens r) 1); [lia | discriminate].
  - destruct (Z.eqb_spec (LL.rate r) 0); [lia|]. cbn [obind LL.tokens].
    assert (0 <= (now - LL.lastFill r) ÷ LL.rate r)
      by (apply Z.quot_pos; lia).
    match goal with
    | |- context [?n <? 1] => destruct (Z.ltb_spec n 1); [|discriminate]
    end.
    intros [= <- <-]. unfold filledBefore; cbn. split_and!; lia.
Qed.

(** A local bucket gives a token once a token period has passed since its
    last fill. *)
Lemma leaky_attempt_after_period t later r :
  filledBefore t r -> 0 < LL.max r -> LL.lastFill r + LL.rate r <= later ->
  exists r', LL.TryTakeWithDuration later r = Done (r', (true, 0)).
Proof.
  intros (Htok & Hrate & Hlast) Hmax Hlater.
  unfold LL.TryTakeWithDuration, LL.unsafeFill.
  destruct (Z.leb_spec (LL.max r) (LL.tokens r)); cbn [obind].
  - destruct (Z.ltb_spec (LL.tokens r) 1); [lia | eauto].
  - destruct (Z.eqb_spec (LL.rate r) 0); [lia|]. cbn [obind LL.tokens].
    assert (1 <= (later - LL.lastFill r) ÷ LL.rate r).
    { rewrite Z.quot_div_nonneg by lia.
      apply Z.div_le_lower_bound; lia. }
    match goal with
    | |- context [?n <? 1] => destruct (Z.ltb_spec n 1); [lia | eauto]
    end.
Qed.

(** On a local leaky bucket in range that no other goroutine touches
    meanwhile, and with a context that is not cancelled before one token
    period has passed, [wait] returns true, at once or out of its second
    attempt, one token period (and the time the goroutine takes to run
    again, the two together at most [2^62] ns) after the first; so [Wait]
    returns and [WaitFunc] calls [cb]. *)
Theorem leaky_wait_acquires t turn turns ctx now r :
  filledBefore t r -> t <= now -> 0 < LL.max r ->
  fillInRange now r -> LL.rate r + Z.of_nat (Local.late turn) <= 2 ^ 62 ->
  (forall r', Local.others turn r' = r') ->
  (forall cancelledAt, ctx = Some cancelledAt -> now + LL.rate r < cancelledAt) ->
  exists r' at_,
    LL.wait (turn :: turns) ctx now r = Local.Acquired r' at_ /\
    (at_ = now \/ at_ = now + LL.rate r + Z.of_nat (Local.late turn)) /\
    snd (LL.WaitFunc (turn :: turns) ctx now r) = true.
Proof.
  intros Hinv Hnow Hmax _ _ Hothers Hctx.
  assert (exists r' at_,
    LL.wait (turn :: turns) ctx now r = Local.Acquired r' at_ /\
    (at_ = now \/ at_ = now + LL.rate r + Z.of_nat (Local.late turn)))
    as (r' & at_ & Hwait & Hat).
  { unfold LL.wait.
    destruct (LL.TryTakeWithDuration now r) as [[r1 [[|] d]]|] eqn:E.
    - exists r1, now. rewrite wait_unfold, E. auto.
    - destruct (leaky_attempt_fails t now r r1 d Hinv Hnow Hmax E)
        as (-> & Hinv1 & Hlast1 & Hmax1 & Hrate1).
      pose proof Hinv as (_ & Hrate & _).
      destruct (leaky_attempt_after_period now
                  (now + Z.max 0 (LL.rate r) + Z.of_nat (Local.late turn))
                  (Local.others turn r1)) as (r2 & Htake).
      + rewrite Hothers. exact Hinv1.
      + rewrite Hothers. lia.
      + rewrite Hothers. lia.
      + exists r2, (now + LL.rate r + Z.of_nat (Local.late turn)).
        split; [|auto].
        rewrite (wait_second_attempt LL.TryTakeWithDuration turn turns ctx
                   now r r1 r2 (LL.rate r) 0 E); [f_equal; lia | | exact Htake].
        intros c Hc. specialize (Hctx c Hc). lia.
    - destruct (TryTake_filledBefore t now r Hinv Hnow)
        as (? & ? & Htake & _).
      unfold LL.TryTake in Htake. rewrite E in Htake. discriminate. }
  exists r', at_. split_and!; [exact Hwait | exact Hat |].
  unfold LL.WaitFunc, Local.WaitFunc. fold LL.wait. rewrite Hwait. reflexivity.
Qed.

Lemma leaky_wait_acquires_witness :
  exists r' at_,
    LL.wait [{| Local.pick := false; Local.late := 3; Local.others := id |}]
      (Some 2000) 1040
      {| LL.max := 2; LL.tokens := 0; LL.rate := 100; LL.lastFill := 1000 |} =
    Local.Acquired r' at_ /\
    (at_ = 1040 \/ at_ = 1040 + 100 + Z.of_nat 3) /\
    snd (LL.WaitFunc
           [{| Local.pick := false; Local.late := 3; Local.others := id |}]
           (Some 2000) 1040
           {| LL.max := 2; LL.tokens := 0; LL.rate := 100;
              LL.lastFill := 1000 |}) = true.
Proof.
  apply (leaky_wait_acquires 1000
           {| Local.pick := false; Local.late := 3; Local.others := id |} []
           (Some 2000) 1040
           {| LL.max := 2; LL.tokens := 0; LL.rate := 100;
              LL.lastFill := 1000 |}).
  - unfold filledBefore; cbn; lia.
  - lia.
  - cbn; lia.
  - unfold fillInRange; cbn; lia.
  - cbn; lia.
  - reflexivity.
  - intros c [= <-]. cbn. lia.
Defined.


(** On a local sliding window that no other goroutine touches meanwhile, and
    with a context that is not cancelled before one window duration has
    passed, [wait] returns true no later than one duration (and the time the
    goroutine takes to run again) after it was entered: at once when there is
    room, and otherwise out of its second attempt, made when the oldest token
    has expired; so [Wait] returns and [WaitFunc] calls [cb]. *)
Theorem window_wait_acquires t turn turns ctx now r :
  windowOk t r -> t <= now -> 0 < LS.capacity r -> 0 < LS.duration r ->
  Z.of_nat (length (LS.window r)) <= LS.capacity r ->
  (forall r', Local.others turn r' = r') ->
  (forall cancelledAt,
     ctx = Some cancelledAt -> now + LS.duration r < cancelledAt) ->
  exists r' at_,
    LS.wait (turn :: turns) ctx now r = Local.Acquired r' at_ /\
    now <= at_ <= now + LS.duration r + Z.of_nat (Local.late turn) /\
    snd (LS.WaitFunc (turn :: turns) ctx now r) = true.
Proof.
  intros Hok Hnow Hcap Hduration Hlen Hothers Hctx.
  assert (exists r' at_,
    LS.wait (turn :: turns) ctx now r = Local.Acquired r' at_ /\
    now <= at_ <= now + LS.duration r + Z.of_nat (Local.late turn))
    as (r' & at_ & Hwait & Hat).
  { pose proof (live_windowOk t now r Hok Hnow) as [Hs Hb].
    destruct Hok as [Hsorted _].
    pose proof (TryTakeWithDuration_live now r Hsorted Hcap) as Htake.
    cbv zeta in Htake. unfold LS.wait.
    pose proof (length_filter (fun ts => now < ts) (LS.window r)) as Hlive.
    fold (Spec.live now (LS.window r)) in Hlive.
    destruct (Z.ltb_spec (Z.of_nat (length (Spec.live now (LS.window r))))
                (LS.capacity r)) as [Hroom|Hfull].
    - eexists _, now. rewrite wait_unfold, Htake. split; [reflexivity | lia].
    - destruct Htake as (first & rest & Elive & Htake).
      rewrite Elive in *.
      assert (now < first) as Hfirst.
      { assert (first ∈ Spec.live now (LS.window r)) as Hin
          by (rewrite Elive; left).
        apply list_elem_of_filter in Hin. tauto. }
      assert (first <= now + LS.duration r) as Hfirst'
        by (inversion Hb; assumption).
      set (later := now + Z.max 0 (first - now) + Z.of_nat (Local.late turn)).
      set (r1 := {| LS.capacity := LS.capacity r;
                    LS.duration := LS.duration r;
                    LS.window := first :: rest |}) in *.
      pose proof (TryTakeWithDuration_live later r1 Hs Hcap) as Htake'.
      cbv zeta in Htake'. cbn [LS.window LS.capacity LS.duration r1] in Htake'.
      assert (Spec.live later (first :: rest) = Spec.live later rest) as Edrop
        by (apply filter_cons_False; unfold later; lia).
      pose proof (length_filter (fun ts => later < ts) rest) as Hlive'.
      fold (Spec.live later rest) in Hlive'.
      rewrite Edrop in Htake'. cbn [length] in *.
      destruct (Z.ltb_spec (Z.of_nat (length (Spec.live later rest)))
                  (LS.capacity r)); [|lia].
      eexists _, later. split; [|unfold later; lia].
      apply (wait_second_attempt LS.TryTakeWithDuration turn turns ctx
               now r r1 _ (first - now) 0 Htake).
      + intros c Hc. specialize (Hctx c Hc). lia.
      + rewrite Hothers. exact Htake'. }
  exists r', at_. split_and!; [exact Hwait | lia | lia |].
  unfold LS.WaitFunc, Local.WaitFunc. fold LS.wait. rewrite Hwait. reflexivity.
Qed.

Lemma window_wait_acquires_witness :
  exists r' at_,
    LS.wait [{| Local.pick := false; Local.late := 3; Local.others := id |}]
      (Some 5000) 1200
      {| LS.capacity := 2; LS.duration := 1000; LS.window := [1500; 2100] |} =
    Local.Acquired r' at_ /\
    1200 <= at_ <= 1200 + 1000 + Z.of_nat 3 /\
    snd (LS.WaitFunc
           [{| Local.pick := false; Local.late := 3; Local.others := id |}]
           (Some 5000) 1200
           {| LS.capacity := 2; LS.duration := 1000;
              LS.window := [1500; 2100] |}) = true.
Proof.
  apply (window_wait_acquires 1100
           {| Local.pick := false; Local.late := 3; Local.others := id |} []
           (Some 5000) 1200
           {| LS.capacity := 2; LS.duration := 1000;
              LS.window := [1500; 2100] |}).
  - split; cbn; repeat constructor; lia.
  - lia.
  - cbn; lia.
  - cbn; lia.
  - cbn; lia.
  - reflexivity.
  - intros c [= <-]. cbn. lia.
Defined.


(** ** Runs of the local sliding window *)

Lemma windowStep_inRange t c r :
  windowOk t r -> 0 < LS.capacity r ->
  Z.of_nat (length (LS.window r)) <= LS.capacity r ->
  t <= Runs.callTime c ->
  exists r' ret,
    Runs.windowStep c r = Done (r', ret) /\
    windowOk (Runs.callTime c) r' /\
    windowInRange (LS.capacity r) (r', ret).
Proof.
  intros Hok Hcap Hlen Hnow.
  pose proof (live_windowOk t _ r Hok Hnow) as [Hs Hb].
  pose proof Hok as [Hsorted _].
  pose proof (length_filter (fun ts => Runs.callTime c < ts) (LS.window r))
    as Hlive.
  fold (Spec.live (Runs.callTime c) (LS.window r)) in Hlive.
  destruct c as [now|now]; cbn [Runs.windowStep Runs.callTime] in *.
  - pose proof (TryTakeWithDuration_live now r Hsorted Hcap) as Htake.
    cbv zeta in Htake. unfold LS.TryTake.
    destruct (Z.ltb_spec (Z.of_nat (length (Spec.live now (LS.window r))))
                (LS.capacity r)) as [Hroom|Hfull].
    + rewrite Htake. cbn [obind]. eexists _, _. split; [reflexivity|].
      split; [exact (TryTakeWithDuration_windowOk t now r _ _ Hok Hnow Htake)|].
      unfold windowInRange; cbn [LS.capacity LS.window].
      rewrite length_app; cbn [length].
      split_and!; [reflexivity | | lia | exact I].
      apply StronglySorted_snoc; [exact Hs|].
      eapply Forall_impl; [exact Hb | cbn; intros; lia].
    + destruct Htake as (first & rest & Elive & Htake).
      rewrite Htake. cbn [obind]. eexists _, _. split; [reflexivity|].
      split; [exact (TryTakeWithDuration_windowOk t now r _ _ Hok Hnow Htake)|].
      unfold windowInRange; cbn [LS.capacity LS.window].
      split_and!; [reflexivity | exact Hs | lia | exact I].
  - unfold LS.Size, LS.clean. cbn [LS.window LS.capacity LS.duration].
    rewrite drop_toRemove by exact Hsorted.
    eexists _, _. split; [reflexivity|].
    split; [split; cbn; assumption|].
    unfold windowInRange; cbn [LS.capacity LS.window].
    split_and!; [reflexivity | exact Hs | lia | lia | lia].
Qed.

Lemma windowRun_inRange calls :
  forall t r,
    windowOk t r -> 0 < LS.capacity r ->
    Z.of_nat (length (LS.window r)) <= LS.capacity r ->
    Runs.nondecreasing t (map Runs.callTime calls) ->
    exists trace,
      Runs.windowRun calls r = Done trace /\
      length trace = length calls /\
      Forall (windowInRange (LS.capacity r)) trace.
Proof.
  induction calls as [|c calls IH]; intros t r Hok Hcap Hlen Hmono.
  - exists []. split_and!; [reflexivity | reflexivity | constructor].
  - destruct Hmono as [Hnow Hmono]. cbn [Runs.windowRun].
    destruct (windowStep_inRange t c r Hok Hcap Hlen Hnow)
      as (r' & ret & -> & Hok' & Hr).
    cbn [obind]. pose proof Hr as (Hcap' & _ & Hlen' & _).
    destruct (IH _ r' Hok' ltac:(lia) ltac:(lia) Hmono)
      as (trace & -> & Hlength & Htrace).
    eexists; split_and!; [reflexivity | cbn; lia |].
    constructor; [exact Hr|]. rewrite <- Hcap'. exact Htrace.
Qed.

(** On a limiter made by [NewSlidingWindow], along every run of [TryTake]
    and [Size] calls whose clock readings do not decrease, no call panics,
    and after every call the window is in the order of the expiries and
    holds at most [capacity] tokens; every [Size] returns a count between 0
    and the capacity. *)
Theorem windowRun_within_capacity capacity duration r t calls :
  LS.NewSlidingWindow capacity duration = Ok r ->
  Runs.nondecreasing t (map Runs.callTime calls) ->
  exists trace,
    Runs.windowRun calls r = Done trace /\
    length trace = length calls /\
    Forall (windowInRange capacity) trace.
Proof.
  intros Hnew Hmono.
  destruct (NewSlidingWindow_windowOk capacity duration r t Hnew)
    as [Hok Hcap].
  assert (LS.capacity r = capacity /\ LS.window r = []) as [Hc Hw].
  { unfold LS.NewSlidingWindow in Hnew.
    destruct (capacity <=? 0); [discriminate|].
    destruct (duration <=? 0); [discriminate|].
    injection Hnew as <-. split; reflexivity. }
  rewrite <- Hc. apply (windowRun_inRange calls t r); try assumption.
  rewrite Hw. cbn. lia.
Qed.

Lemma windowRun_within_capacity_witness :
  exists trace,
    Runs.windowRun
      [Runs.CallTryTake 10; Runs.CallTryTake 10; Runs.CallTryTake 12;
       Runs.CallSize 1011; Runs.CallTryTake 1011]
      {| LS.capacity := 2; LS.duration := 1000; LS.window := [] |} =
    Done trace /\
    length trace = 5%nat /\
    Forall (windowInRange 2) trace.
Proof.
  apply (windowRun_within_capacity 2 1000
           {| LS.capacity := 2; LS.duration := 1000; LS.window := [] |} 0
           [Runs.CallTryTake 10; Runs.CallTryTake 10; Runs.CallTryTake 12;
            Runs.CallSize 1011; Runs.CallTryTake 1011]).
  - reflexivity.
  - cbn. lia.
Defined.


(** ** The distributed limiters over any adapter *)

(** Whatever the adapter is, the three methods of the distributed limiters
    leave the backend as the one [Eval] they make left it, and they fail
    exactly when that [Eval] failed or replied with a malformed value: an
    error [e] of the adapter comes back as a query error that wraps [e], a
    malformed reply as a parsing error ([Inspect], which expects one
    integer, returns its own error), and any other reply gives a response.
    The remaining capacity that a sliding window reports is never negative;
    it is [max(0, maxCapacity - tokens)] when that difference is one that
    Go's [int] holds.  (The expiry [now + window] that [Use] sends is taken
    to be one that [UnixNano] holds.) *)
Theorem methods_over_any_adapter :
  (forall (S : Type) (eval : RL.LeakyEval S) bucket takeAmount now s,
     let sent :=
       {| RL.argTokensKey := (RL.KeyPrefix bucket ++ "::tokens")%string;
          RL.argLastFillKey := (RL.KeyPrefix bucket ++ "::last_fill")%string;
          RL.argCapacity := RL.MaximumCapacity bucket;
          RL.argRate :=
            RL.getRefillRate (RL.MaximumCapacity bucket)
              (RL.WindowSeconds bucket);
          RL.argNow := now; RL.argTake := takeAmount;
          RL.argWindowSeconds := RL.WindowSeconds bucket |} in
     let answer := snd (RL.Use eval bucket takeAmount now s) in
     fst (RL.Use eval bucket takeAmount now s) = fst (eval sent s) /\
     match snd (eval sent s) with
     | Err e => answer = Err (ErrQuery e)
     | Ok v =>
         if malformed 3 v then exists e, answer = Err (ErrParsing e)
         else exists success tokens lastFilled resp,
                v = VSlice [VInt64 success; VInt64 tokens;
                            VInt64 lastFilled] /\
                answer = Ok resp /\
                RL.Success resp = (success =? 1) /\
                RL.RemainingTokens resp = tokens
     end) /\
  (forall (S : Type) (eval : RS.SlidingEval S) bucket now s,
     - 2 ^ 63 <= now + RS.Window bucket < 2 ^ 63 ->
     let sent :=
       RS.UseArgs (RS.Key bucket) now (now + RS.Window bucket)
         (toInt (ceil (RS.Seconds (RS.Window bucket))))
         (RS.MaximumCapacity bucket) in
     let answer := snd (RS.Use eval bucket now s) in
     fst (RS.Use eval bucket now s) = fst (eval sent s) /\
     match snd (eval sent s) with
     | Err e => answer = Err (ErrQuery e)
     | Ok v =>
         if malformed 2 v then exists e, answer = Err (ErrParsing e)
         else exists success tokens resp,
                v = VSlice [VInt64 success; VInt64 tokens] /\
                answer = Ok resp /\
                RS.Success resp = (success =? 1) /\
                0 <= RS.RemainingCapacity resp /\
                (- 2 ^ 63 <= RS.MaximumCapacity bucket - tokens < 2 ^ 63 ->
                 RS.RemainingCapacity resp =
                 Z.max 0 (RS.MaximumCapacity bucket - tokens))
     end) /\
  (forall (S : Type) (eval : RS.SlidingEval S) bucket now s,
     let sent := RS.InspectArgs (RS.Key bucket) now in
     let answer := snd (RS.Inspect eval bucket now s) in
     fst (RS.Inspect eval bucket now s) = fst (eval sent s) /\
     match snd (eval sent s) with
     | Err e => answer = Err (ErrQuery e)
     | Ok (VInt64 tokens) =>
         exists resp,
           answer = Ok resp /\
           0 <= RS.InspectRemainingCapacity resp /\
           (- 2 ^ 63 <= RS.MaximumCapacity bucket - tokens < 2 ^ 63 ->
            RS.InspectRemainingCapacity resp =
            Z.max 0 (RS.MaximumCapacity bucket - tokens))
     | Ok v => answer = Err (ErrExpectingInt64 (typeName v))
     end).
Proof.
  split_and!.
  - intros S eval bucket takeAmount now s sent answer.
    subst answer. unfold RL.Use. cbv zeta. fold sent.
    destruct (eval sent s) as [s' [v|e]]; cbn [fst snd];
      [|split; reflexivity].
    pose proof (parseLeakyBucketResponse_spec v) as Hparse.
    destruct (RL.parseLeakyBucketResponse v) as [output|e]; cbn [fst snd].
    + destruct Hparse as (-> & success & tokens & lastFilled & -> & ->).
      split; [reflexivity|]. eexists _, _, _, _.
      split_and!; reflexivity.
    + rewrite Hparse. split; [reflexivity | eauto].
  - intros S eval bucket now s _ sent answer.
    subst answer. unfold RS.Use. cbv zeta. fold sent.
    destruct (eval sent s) as [s' [v|e]]; cbn [fst snd];
      [|split; reflexivity].
    pose proof (parseSlidingWindowResponse_spec v) as Hparse.
    destruct (RS.parseSlidingWindowResponse v) as [output|e]; cbn [fst snd].
    + destruct Hparse as (-> & success & tokens & -> & ->).
      split; [reflexivity|]. eexists _, _, _.
      split_and!; try reflexivity; cbn;
        destruct (Z.ltb_spec 0 (RS.MaximumCapacity bucket - tokens)); lia.
    + rewrite Hparse. split; [reflexivity | eauto].
  - intros S eval bucket now s sent answer.
    subst answer. unfold RS.Inspect. fold sent.
    destruct (eval sent s) as [s' [v|e]]; cbn [fst snd];
      [|split; reflexivity].
    destruct v; cbn [fst snd]; split; try reflexivity.
    eexists. split; [reflexivity|]. cbn.
    match goal with
    | |- context [0 <? ?v] => destruct (Z.ltb_spec 0 v); lia
    end.
Qed.

(** The mock adapter of the tests, replying [{1, 3}] to a [Use] of a window
    of capacity 60. *)
Lemma methods_over_any_adapter_witness :
  let bucket := {| RS.Key := "test-bucket"; RS.MaximumCapacity := 60;
                   RS.Window := 10 |} in
  let eval : RS.SlidingEval bool :=
    RL.mockAdapter (VSlice [VInt64 1; VInt64 3]) None in
  fst (RS.Use eval bucket 7 false) = true /\
  exists success tokens resp,
    VSlice [VInt64 1; VInt64 3] = VSlice [VInt64 success; VInt64 tokens] /\
    snd (RS.Use eval bucket 7 false) = Ok resp /\
    RS.Success resp = (success =? 1) /\
    0 <= RS.RemainingCapacity resp /\
    (- 2 ^ 63 <= 60 - tokens < 2 ^ 63 ->
     RS.RemainingCapacity resp = Z.max 0 (60 - tokens)).
Proof.
  intros bucket eval.
  exact (proj1 (proj2 methods_over_any_adapter) bool eval bucket 7 false
           ltac:(cbn; lia)).
Defined.


(** ** Refill and grant of the distributed leaky bucket *)

Lemma refill_le_capacity capacity rate now tokens lastFill :
  fst (Spec.refill capacity rate now tokens lastFill) <= capacity.
Proof.
  unfold Spec.refill.
  destruct (Z.ltb_spec (Z.min (default 0 tokens) capacity) capacity);
    cbn [andb]; [|cbn [fst]; lia].
  destruct (Spec.tokensToFill rate now lastFill) as [n| | |];
    cbn [Spec.isPositive Spec.minPlus]; [destruct (Z.ltb_spec 0 n)|..];
    cbn [fst]; lia.
Qed.

(** A distributed [Use] in range that asks for more tokens than the capacity
    is never granted, whatever the keys hold and whenever it is made: it
    returns a response without success and takes nothing from the tokens
    that the refill left, which it stores and reports. *)
Theorem Use_beyond_capacity bucket takeAmount now db :
  leakyInRange bucket takeAmount now db ->
  RL.MaximumCapacity bucket < takeAmount ->
  exists db' resp,
    RL.Use RL.redisLeakyEval bucket takeAmount now db = (db', Ok resp) /\
    RL.Success resp = false /\
    RL.RemainingTokens resp <= RL.MaximumCapacity bucket /\
    RL.RemainingTokens resp =
      fst (Spec.refill (RL.MaximumCapacity bucket)
             (RL.getRefillRate (RL.MaximumCapacity bucket)
                (RL.WindowSeconds bucket))
             now (RL.tokensKey db) (RL.lastFillKey db)) /\
    RL.tokensKey db' = Some (RL.RemainingTokens resp).
Proof.
  intros _ Hmore. rewrite Use_redisLeakyEval, leakyBucketScript_refill.
  pose proof (refill_le_capacity (RL.MaximumCapacity bucket)
    (RL.getRefillRate (RL.MaximumCapacity bucket) (RL.WindowSeconds bucket))
    now (RL.tokensKey db) (RL.lastFillKey db)) as Hle.
  destruct (Spec.refill _ _ _ _ _) as [tokens lastFill]; cbn [fst] in *.
  destruct (Z.leb_spec takeAmount tokens); [lia|].
  eexists _, _. split; [reflexivity|]. cbn. split_and!; (reflexivity || lia).
Qed.

Lemma Use_beyond_capacity_witness :
  exists db' resp,
    RL.Use RL.redisLeakyEval
      {| RL.KeyPrefix := "test-bucket"; RL.MaximumCapacity := 60;
         RL.WindowSeconds := 60 |} 61 1000
      {| RL.tokensKey := Some 60; RL.lastFillKey := Some 1000 |} =
    (db', Ok resp) /\
    RL.Success resp = false /\
    RL.RemainingTokens resp <= 60 /\
    RL.RemainingTokens resp =
      fst (Spec.refill 60 (RL.getRefillRate 60 60) 1000 (Some 60) (Some 1000))
    /\ RL.tokensKey db' = Some (RL.RemainingTokens resp).
Proof.
  exact (Use_beyond_capacity
           {| RL.KeyPrefix := "test-bucket"; RL.MaximumCapacity := 60;
              RL.WindowSeconds := 60 |} 61 1000
           {| RL.tokensKey := Some 60; RL.lastFillKey := Some 1000 |}
           ltac:(unfold leakyInRange; cbn; lia) ltac:(cbn; lia)).
Defined.

(** No time, no tokens: the product of the float64 zero and any rate has a
    floor that is not positive. *)
Lemma tokensToFill_same_instant rate now :
  Spec.isPositive (Spec.tokensToFill rate now (Some now)) = false.
Proof.
  unfold Spec.tokensToFill. cbn [default]. rewrite Z.sub_diag.
  change (float64 0) with zero. unfold floor.
  rewrite mul_spec. change (Prim2SF zero) with (S754_zero false).
  destruct (Prim2SF rate) as [s|[|]| |s m e]; reflexivity.
Qed.

(** A distributed [Use] in range made at the very second of the stored last
    fill adds no token, whatever the rate is: it grants the take amount out
    of the stored tokens (clamped to the capacity) or nothing, and the last
    fill stays. *)
Theorem Use_same_instant bucket takeAmount now db :
  leakyInRange bucket takeAmount now db ->
  RL.lastFillKey db = Some now ->
  exists db' resp,
    RL.Use RL.redisLeakyEval bucket takeAmount now db = (db', Ok resp) /\
    RL.lastFillKey db' = Some now /\
    RL.tokensKey db' = Some (RL.RemainingTokens resp) /\
    RL.RemainingTokens resp =
      Z.min (default 0 (RL.tokensKey db)) (RL.MaximumCapacity bucket)
      - (if RL.Success resp then takeAmount else 0) /\
    RL.Success resp =
      (takeAmount <=?
       Z.min (default 0 (RL.tokensKey db)) (RL.MaximumCapacity bucket)).
Proof.
  intros _ Hlast. rewrite Use_redisLeakyEval, leakyBucketScript_refill.
  unfold Spec.refill. rewrite Hlast, tokensToFill_same_instant, andb_false_r.
  cbn [default].
  destruct (takeAmount <=? _); eexists _, _; (split; [reflexivity|]); cbn;
    split_and!; (reflexivity || lia).
Qed.

Lemma Use_same_instant_witness :
  exists db' resp,
    RL.Use RL.redisLeakyEval
      {| RL.KeyPrefix := "test-bucket"; RL.MaximumCapacity := 60;
         RL.WindowSeconds := 60 |} 5 1000
      {| RL.tokensKey := Some 7; RL.lastFillKey := Some 1000 |} =
    (db', Ok resp) /\
    RL.lastFillKey db' = Some 1000 /\
    RL.tokensKey db' = Some (RL.RemainingTokens resp) /\
    RL.RemainingTokens resp =
      Z.min 7 60 - (if RL.Success resp then 5 else 0) /\
    RL.Success resp = (5 <=? Z.min 7 60).
Proof.
  exact (Use_same_instant
           {| RL.KeyPrefix := "test-bucket"; RL.MaximumCapacity := 60;
              RL.WindowSeconds := 60 |} 5 1000
           {| RL.tokensKey := Some 7; RL.lastFillKey := Some 1000 |}
           ltac:(unfold leakyInRange; cbn; lia) eq_refl).
Defined.


(** ** [Size] of the local sliding window *)

Lemma live_live now later window :
  now <= later ->
  Spec.live later (Spec.live now window) = Spec.live later window.
Proof.
  intros Hle. unfold Spec.live.
  induction window as [|ts window IH]; [reflexivity|].
  destruct (decide (now < ts)) as [Hlive|Hdead].
  - rewrite (filter_cons_True (fun ts => now < ts)) by exact Hlive.
    destruct (decide (later < ts)).
    + rewrite !filter_cons_True by assumption. f_equal. exact IH.
    + rewrite !filter_cons_False by assumption. exact IH.
  - rewrite (filter_cons_False (fun ts => now < ts)) by exact Hdead.
    rewrite (filter_cons_False (fun ts => later < ts)) by lia. exact IH.
Qed.

(** [Size] of a local sliding window only evicts: it returns the number of
    the tokens that have not expired, and every call that follows, then or
    later, returns what it would have returned without the [Size] and
    leaves the limiter as it would have left it.  (On the local leaky bucket
    a [Size] moves [lastFill].) *)
Theorem Size_only_evicts t now later r :
  windowOk t r -> t <= now -> now <= later ->
  let '(r', size) := LS.Size now r in
  size = Z.of_nat (length (Spec.live now (LS.window r))) /\
  LS.window r' = Spec.live now (LS.window r) /\
  LS.TryTakeWithDuration later r' = LS.TryTakeWithDuration later r /\
  LS.TryTake later r' = LS.TryTake later r /\
  LS.Size later r' = LS.Size later r.
Proof.
  intros Hok Hnow Hlater.
  pose proof (live_windowOk t now r Hok Hnow) as [Hs _].
  destruct Hok as [Hsorted _].
  assert (LS.clean later (LS.clean now r) = LS.clean later r) as Hclean.
  { unfold LS.clean. cbn [LS.window LS.capacity LS.duration].
    rewrite (drop_toRemove now) by exact Hsorted.
    rewrite !drop_toRemove by assumption.
    rewrite live_live by exact Hlater. reflexivity. }
  unfold LS.Size, LS.TryTake, LS.TryTakeWithDuration. rewrite Hclean.
  unfold LS.clean at 1 2. cbn [LS.window].
  rewrite drop_toRemove by exact Hsorted.
  split_and!; reflexivity.
Qed.

Lemma Size_only_evicts_witness :
  let r := {| LS.capacity := 2; LS.duration := 1000;
              LS.window := [1500; 2100] |} in
  let '(r', size) := LS.Size 1600 r in
  size = Z.of_nat (length (Spec.live 1600 (LS.window r))) /\
  LS.window r' = Spec.live 1600 (LS.window r) /\
  LS.TryTakeWithDuration 1700 r' = LS.TryTakeWithDuration 1700 r /\
  LS.TryTake 1700 r' = LS.TryTake 1700 r /\
  LS.Size 1700 r' = LS.Size 1700 r.
Proof.
  apply (Size_only_evicts 1100 1600 1700
           {| LS.capacity := 2; LS.duration := 1000;
              LS.window := [1500; 2100] |}).
  - split; cbn; repeat constructor; lia.
  - lia.
  - lia.
Defined.

(** ** The redigo adapter *)

Lemma fold_left_snoc (keys : list string) (out : list value) :
  fold_left (fun out v => out ++ [VString v]) keys out =
  out ++ map VString keys.
Proof.
  revert out. induction keys as [|key keys IH]; intros out; cbn.
  - symmetry. apply app_nil_r.
  - rewrite IH, <- app_assoc. reflexivity.
Qed.

(** The arguments that the redigo adapter hands to EVAL are the script, the
    number of the keys, the keys and then the arguments, in their order and
    nothing else: the keys are the [numkeys] values after the first two, the
    arguments are the rest, and the slice is as long as the capacity it was
    made with. *)
Theorem buildEvalArgs_layout script keys args :
  let out := Redis.Redigo.buildEvalArgs script keys args in
  out = VString script :: VInt (Z.of_nat (length keys))
        :: map VString keys ++ args /\
  length out = (2 + length keys + length args)%nat /\
  take (length keys) (drop 2 out) = map VString keys /\
  drop (2 + length keys) out = args.
Proof.
  assert (Redis.Redigo.buildEvalArgs script keys args =
          VString script :: VInt (Z.of_nat (length keys))
          :: map VString keys ++ args) as E.
  { unfold Redis.Redigo.buildEvalArgs. cbv zeta.
    rewrite fold_left_snoc. reflexivity. }
  cbv zeta. rewrite E.
  change (drop 2 (VString script :: VInt (Z.of_nat (length keys))
                  :: map VString keys ++ args))
    with (map VString keys ++ args).
  change (drop (2 + length keys)
            (VString script :: VInt (Z.of_nat (length keys))
             :: map VString keys ++ args))
    with (drop (length keys) (map VString keys ++ args)).
  split_and!.
  - reflexivity.
  - cbn [length]. rewrite length_app, length_map. reflexivity.
  - rewrite take_app_length'; [reflexivity | symmetry; apply length_map].
  - rewrite drop_app_length'; [reflexivity | symmetry; apply length_map].
Qed.


(** ** [Inspect] after [Use] *)




(** ** Cancellation *)

(** [wait] returns false only when the context is cancelled: never with a
    context that cannot be cancelled, and not before the instant of the
    cancellation.  (Time does not run backwards in the loop.) *)
Theorem wait_false_only_cancelled {St : Type}
    (tryTake : Z -> St -> outcome (St * (bool * Z))) turns :
  forall ctx now r r' at_,
    Local.wait tryTake turns ctx now r = Local.Cancelled r' at_ ->
    exists cancelledAt,
      ctx = Some cancelledAt /\ cancelledAt <= at_ /\ now <= at_.
Proof.
  induction turns as [|turn turns IH]; intros ctx now r r' at_;
    rewrite wait_unfold;
    destruct (tryTake now r) as [[r1 [[|] d]]|]; try discriminate.
  unfold Local.awaitNextToken.
  destruct ctx as [cancelledAt|].
  - destruct (Z.ltb_spec (Z.max now cancelledAt) (now + Z.max 0 d)).
    + cbn. intros [= <- <-]. exists cancelledAt. split_and!; [reflexivity|lia..].
    + destruct (Z.ltb_spec (now + Z.max 0 d) (Z.max now cancelledAt)).
      * cbn. intros Hwait. apply IH in Hwait as (c & Hc & Hle & Hat).
        exists c. split_and!; [exact Hc | lia..].
      * destruct (Local.pick turn); cbn.
        -- intros Hwait. apply IH in Hwait as (c & Hc & Hle & Hat).
           exists c. split_and!; [exact Hc | lia..].
        -- intros [= <- <-]. exists cancelledAt.
           split_and!; [reflexivity|lia..].
  - cbn. intros Hwait. apply IH in Hwait as (c & Hc & _). discriminate.
Qed.

Lemma wait_false_only_cancelled_witness :
  exists cancelledAt,
    Some 1050 = Some cancelledAt /\ cancelledAt <= 1050 /\ 1040 <= 1050.
Proof.
  apply (wait_false_only_cancelled LL.TryTakeWithDuration
           [{| Local.pick := false; Local.late := 3; Local.others := id |}]
           (Some 1050) 1040
           {| LL.max := 2; LL.tokens := 0; LL.rate := 100; LL.lastFill := 1000 |}
           {| LL.max := 2; LL.tokens := 0; LL.rate := 100; LL.lastFill := 1040 |}
           1050).
  reflexivity.
Defined.


(** ** A steady caller of the local leaky bucket *)

Lemma TryTake_after_period t now horizon r :
  filledBefore t r -> 0 < LL.max r -> t + LL.rate r <= now ->
  now <= horizon -> fillInRange horizon r ->
  exists r',
    LL.TryTake now r = Done (r', true) /\ filledBefore now r' /\
    fillInRange horizon r' /\
    LL.max r' = LL.max r /\ LL.rate r' = LL.rate r.
Proof.
  intros (Htok & Hrate & Hlast) Hmax Hnow Hhorizon [Hhigh Hspan].
  unfold LL.TryTake, LL.TryTakeWithDuration, LL.unsafeFill.
  destruct (Z.leb_spec (LL.max r) (LL.tokens r)); cbn [obind].
  - destruct (Z.ltb_spec (LL.tokens r) 1); [lia|]. cbn [obind].
    eexists. split; [reflexivity|]. unfold filledBefore, fillInRange; cbn.
    split_and!; lia.
  - destruct (Z.eqb_spec (LL.rate r) 0); [lia|]. cbn [obind LL.tokens].
    assert (1 <= (now - LL.lastFill r) ÷ LL.rate r).
    { rewrite Z.quot_div_nonneg by lia.
      apply Z.div_le_lower_bound; lia. }
    match goal with
    | |- context [?n <? 1] => destruct (Z.ltb_spec n 1); [lia|]
    end.
    cbn [obind]. eexists. split; [reflexivity|].
    unfold filledBefore, fillInRange; cbn.
    split_and!; lia.
Qed.

(** A caller that asks a local leaky bucket for a token no more often than
    once per token period is always served: every [TryTake] made at least
    one token period after the call before it takes a token, whatever the
    bucket held before.  (The capacity is a number that [float64] holds, and
    the calls end within [2^62] ns of the last fill.) *)
Theorem tryTakes_spaced horizon times :
  forall t r,
    filledBefore t r -> 0 < LL.max r -> fillInRange horizon r ->
    Runs.spaced (LL.rate r) t times ->
    Forall (fun now => now <= horizon) times ->
    exists r',
      Runs.tryTakes times r = Done (r', replicate (length times) true).
Proof.
  induction times as [|now times IH];
    intros t r Hinv Hmax Hrange Hspaced Hhorizon.
  - exists r. reflexivity.
  - destruct Hspaced as [Hnow Hspaced].
    inversion Hhorizon as [|? ? Hle Hrest]; subst.
    destruct (TryTake_after_period t now horizon r Hinv Hmax Hnow Hle Hrange)
      as (r1 & Htake & Hinv1 & Hrange1 & Hmax1 & Hrate1).
    rewrite <- Hrate1 in Hspaced.
    destruct (IH now r1 Hinv1 ltac:(lia) Hrange1 Hspaced Hrest)
      as (r' & Hrun).
    cbn [Runs.tryTakes]. rewrite Htake; cbn [obind]. rewrite Hrun; cbn [obind].
    exists r'. reflexivity.
Qed.

Lemma tryTakes_spaced_witness :
  exists r',
    Runs.tryTakes [1100; 1200; 1350]
      {| LL.max := 2; LL.tokens := 0; LL.rate := 100; LL.lastFill := 1000 |} =
    Done (r', replicate (length [1100; 1200; 1350]) true).
Proof.
  apply (tryTakes_spaced 2000 [1100; 1200; 1350] 1000
           {| LL.max := 2; LL.tokens := 0; LL.rate := 100;
              LL.lastFill := 1000 |}).
  - unfold filledBefore; cbn; lia.
  - cbn; lia.
  - unfold fillInRange; cbn; lia.
  - cbn; lia.
  - repeat constructor; lia.
Defined.


(** ** A steady caller of the local sliding window *)

Lemma gapped_drop gap n window :
  gapped gap window -> gapped gap (drop n window).
Proof.
  revert window. induction n as [|n IH]; intros [|ts window] H;
    try exact H.
  cbn [drop]. apply IH. exact (proj2 H).
Qed.

Lemma gapped_snoc gap window x :
  gapped gap window -> Forall (fun ts => ts + gap <= x) window ->
  gapped gap (window ++ [x]).
Proof.
  induction window as [|ts [|ts' window] IH]; intros Hgap Hx.
  - cbn. auto.
  - inversion Hx; subst. cbn. auto.
  - inversion Hx; subst. destruct Hgap as [Hts Hgap].
    split; [exact Hts | apply IH; assumption].
Qed.

(** Expiries that are [gap] apart span their number of gaps. *)
Lemma gapped_span gap hi window :
  forall ts,
    gapped gap (ts :: window) -> Forall (fun ts => ts <= hi) (ts :: window) ->
    ts + Z.of_nat (length window) * gap <= hi.
Proof.
  induction window as [|ts' window IH]; intros ts Hgap Hhi.
  - inversion Hhi; subst. cbn. lia.
  - destruct Hgap as [Hts Hgap]. inversion Hhi as [|? ? _ Hhi']; subst.
    specialize (IH ts' Hgap Hhi'). cbn [length]. lia.
Qed.

(** The first entry that [clean] keeps has not expired. *)
Lemma drop_toRemove_head now window :
  match drop (LS.toRemove now window) window with
  | [] => True
  | ts :: _ => now < ts
  end.
Proof.
  induction window as [|ts window IH]; [exact I|].
  cbn [LS.toRemove]. destruct (Z.ltb_spec now ts); [assumption | exact IH].
Qed.

Lemma TryTake_paced gap t now r :
  0 < gap -> 0 < LS.capacity r -> LS.duration r <= LS.capacity r * gap ->
  paced gap t r -> t + gap <= now ->
  exists r',
    LS.TryTake now r = Done (r', true) /\ paced gap now r' /\
    LS.capacity r' = LS.capacity r /\ LS.duration r' = LS.duration r.
Proof.
  intros Hgap Hcap Hrate [Hgapped Hbound] Hnow.
  unfold LS.TryTake, LS.TryTakeWithDuration, LS.clean.
  cbn [LS.window LS.capacity LS.duration].
  pose proof (gapped_drop gap (LS.toRemove now (LS.window r)) _ Hgapped)
    as Hgapped'.
  pose proof (Forall_drop _ (LS.toRemove now (LS.window r)) _ Hbound)
    as Hbound'.
  pose proof (drop_toRemove_head now (LS.window r)) as Hhead.
  set (kept := drop (LS.toRemove now (LS.window r)) (LS.window r)) in *.
  assert (Z.of_nat (length kept) < LS.capacity r) as Hroom.
  { destruct kept as [|ts kept]; [cbn; lia|].
    pose proof (gapped_span gap _ kept ts Hgapped' Hbound') as Hspan.
    cbn [length]. nia. }
  destruct (Z.leb_spec (LS.capacity r) (Z.of_nat (length kept))); [lia|].
  cbn [obind]. eexists. split; [reflexivity|].
  split; [|split; reflexivity]. split; cbn [LS.window LS.duration].
  - apply gapped_snoc; [exact Hgapped'|].
    eapply Forall_impl; [exact Hbound' | cbn; intros; lia].
  - apply Forall_app. split.
    + eapply Forall_impl; [exact Hbound' | cbn; intros; lia].
    + repeat constructor. lia.
Qed.

(** A caller that asks a local sliding window for a token no more often than
    once per [gap], where [capacity] gaps make up the duration or more, is
    always served: every such [TryTake] takes a token.  The window may hold
    tokens already, taken at that pace. *)
Theorem windowTakes_spaced gap times :
  forall t r,
    0 < gap -> 0 < LS.capacity r -> LS.duration r <= LS.capacity r * gap ->
    paced gap t r -> Runs.spaced gap t times ->
    exists r',
      Runs.windowTakes times r = Done (r', replicate (length times) true).
Proof.
  induction times as [|now times IH];
    intros t r Hgap Hcap Hrate Hpaced Hspaced.
  - exists r. reflexivity.
  - destruct Hspaced as [Hnow Hspaced].
    destruct (TryTake_paced gap t now r Hgap Hcap Hrate Hpaced Hnow)
      as (r1 & Htake & Hpaced1 & Hcap1 & Hduration1).
    destruct (IH now r1 Hgap ltac:(lia) ltac:(rewrite Hcap1, Hduration1; lia)
                Hpaced1 Hspaced) as (r' & Hrun).
    cbn [Runs.windowTakes]. rewrite Htake; cbn [obind].
    rewrite Hrun; cbn [obind]. exists r'. reflexivity.
Qed.

Lemma windowTakes_spaced_witness :
  exists r',
    Runs.windowTakes [1500; 2000; 2600; 3100]
      {| LS.capacity := 2; LS.duration := 1000; LS.window := [1900] |} =
    Done (r', replicate (length [1500; 2000; 2600; 3100]) true).
Proof.
  apply (windowTakes_spaced 500 [1500; 2000; 2600; 3100] 1000
           {| LS.capacity := 2; LS.duration := 1000; LS.window := [1900] |}).
  - lia.
  - cbn; lia.
  - cbn; lia.
  - split; cbn; repeat constructor; lia.
  - cbn; lia.
Defined.


(** ** The tests of the repository, run on the embedding *)

(** [TestUseLeakyBucket]: capacity 60, window 60 s; two takes at one instant
    and a third one 3 s later. *)
Example TestUseLeakyBucket :
  let bucket := {| RL.KeyPrefix := "test-bucket"; RL.MaximumCapacity := 60;
                   RL.WindowSeconds := 60 |} in
  let now := 1700000000 in
  let '(db, first) := RL.Use RL.redisLeakyEval bucket 1 now RL.noKeys in
  let '(db, second) := RL.Use RL.redisLeakyEval bucket 1 now db in
  let '(db, third) := RL.Use RL.redisLeakyEval bucket 1 (now + 3) db in
  first = Ok {| RL.Success := true; RL.RemainingTokens := 59;
                RL.ResetAt := now + 1 |} /\
  second = Ok {| RL.Success := true; RL.RemainingTokens := 58;
                 RL.ResetAt := now + 2 |} /\
  third = Ok {| RL.Success := true; RL.RemainingTokens := 59;
                RL.ResetAt := now + 4 |}.
Proof. vm_compute. repeat split. Qed.

(** [TestUseLeakyBucket_Errors]: an error of the adapter, and a reply that
    is a string. *)
Example TestUseLeakyBucket_Errors :
  let bucket := {| RL.KeyPrefix := "test-bucket"; RL.MaximumCapacity := 60;
                   RL.WindowSeconds := 60 |} in
  RL.Use (RL.mockAdapter VNil (Some (ErrBackend "assert.AnError")))
    bucket 1 0 false
  = (true, Err (ErrQuery (ErrBackend "assert.AnError"))) /\
  RL.Use (RL.mockAdapter (VString "foo") None) bucket 1 0 false
  = (true, Err (ErrParsing (ErrExpectedSlice "string"))).
Proof. split; reflexivity. Qed.

(** [TestUseSlidingWindow]: capacity 60, window 60 s; takes at 0 s, 3 s,
    60 s (the first token has expired) and 120 s (all have). *)
Example TestUseSlidingWindow :
  let bucket := {| RS.Key := "test-bucket"; RS.MaximumCapacity := 60;
                   RS.Window := 60000000000 |} in
  let now := 1700000000000000000 in
  let '(zset, first) := RS.Use RS.redisSlidingEval bucket now ∅ in
  let '(zset, second) :=
    RS.Use RS.redisSlidingEval bucket (now + 3000000000) zset in
  let '(zset, third) :=
    RS.Use RS.redisSlidingEval bucket (now + 60000000000) zset in
  let '(zset, fourth) :=
    RS.Use RS.redisSlidingEval bucket (now + 120000000000) zset in
  first = Ok {| RS.Success := true; RS.RemainingCapacity := 59 |} /\
  second = Ok {| RS.Success := true; RS.RemainingCapacity := 58 |} /\
  third = Ok {| RS.Success := true; RS.RemainingCapacity := 58 |} /\
  fourth = Ok {| RS.Success := true; RS.RemainingCapacity := 59 |}.
Proof. vm_compute. repeat split. Qed.

(** [TestLeakyBucket], "ratelimits properly": ten tokens per 2 s. *)
Example TestLeakyBucket_ratelimits :
  let r := {| LL.max := 10; LL.tokens := 10; LL.rate := 200000000;
              LL.lastFill := 0 |} in
  let r' := {| LL.max := 10; LL.tokens := 0; LL.rate := 200000000;
               LL.lastFill := 0 |} in
  LL.NewLeakyBucket 10 2000000000 0 = Done r /\
  LL.Size 0 r = Done (r, 10) /\
  Runs.tryTakes (repeat 0 10%nat) r = Done (r', repeat true 10%nat) /\
  LL.Size 0 r' = Done (r', 0) /\
  LL.TryTake 0 r' = Done (r', false).
Proof. vm_compute. repeat split. Qed.

(** [TestSlidingWindow], "validates arguments correctly" and "ratelimits
    properly". *)
Example TestSlidingWindow_ratelimits :
  let r := {| LS.capacity := 2; LS.duration := 2000000000;
              LS.window := [] |} in
  let r' := {| LS.capacity := 2; LS.duration := 2000000000;
               LS.window := [2000000000; 2000000000] |} in
  LS.NewSlidingWindow 0 10000000000 = Err ErrCapacity /\
  LS.NewSlidingWindow 10 0 = Err ErrDuration /\
  LS.NewSlidingWindow 2 2000000000 = Ok r /\
  LS.Size 0 r = (r, 0) /\
  obind (LS.TryTake 0 r) (fun '(r1, ok1) =>
    obind (LS.TryTake 0 r1) (fun '(r2, ok2) => Done (r2, [ok1; ok2])))
  = Done (r', [true; true]) /\
  LS.Size 0 r' = (r', 2) /\
  LS.TryTake 0 r' = Done (r', false).
Proof. vm_compute. repeat split. Qed.
